(** * websitecheck: the prober and the backoff monitor loop

    A shallow embedding of the two Go programs of the repository
    ([src/main.go], the plain monitor, and [src/unnamed/part_000], the
    monitor with escalating backoff) and the properties of their
    failure-detection and backoff logic.

    Conventions.
    - Go's [int] is the 64-bit two's-complement integer of the usual
      targets; it is a [Z] and every arithmetic operation of the source
      is followed by [wrap].
    - Go's [float64] is IEEE 754 binary64, taken from the standard
      library's [SpecFloat] with [prec = 53] and [emax = 1024].
    - Input and output are explicit: what the network and the launched
      process answer is an argument, what the program does to the world
      (requests, log lines, sleeps, process launches) is a list of
      events in program order. *)

From Stdlib Require Import ZArith List Bool Lia String.
From Stdlib Require Import Floats.SpecFloat.
Import ListNotations.

Local Open Scope Z_scope.

(** ** Go integers *)

Module GoInt.

Definition int_min : Z := - 2 ^ 63.
Definition int_max : Z := 2 ^ 63 - 1.

(** Two's-complement reduction of a mathematical integer to [int]. *)
Definition wrap (z : Z) : Z := (z + 2 ^ 63) mod 2 ^ 64 - 2 ^ 63.

Definition is_int (z : Z) : Prop := int_min <= z <= int_max.

Definition fits (z : Z) : bool := (int_min <=? z) && (z <=? int_max).

(** [time.Second] as a [time.Duration] (nanoseconds). *)
Definition Second : Z := 1000000000.

(** [time.Duration(n) * time.Second]. *)
Definition seconds (n : Z) : Z := wrap (n * Second).

End GoInt.

Import GoInt.

(** ** Go float64 *)

Module Float64.

Definition prec : Z := 53.
Definition emax : Z := 1024.

Definition float64 : Type := spec_float.

(** Every value a Go program holds is a well-formed binary64. *)
Definition valid (f : float64) : Prop := valid_binary prec emax f = true.

(** [float64(n)] for an [int]: round to nearest, ties to even. *)
Definition of_int (n : Z) : float64 := binary_normalize prec emax n 0 false.

(** [x * y] on [float64]. *)
Definition mul (x y : float64) : float64 := SFmul prec emax x y.

(** [x <= y] on [float64]. *)
Definition leb (x y : float64) : bool := SFleb x y.

Definition one : float64 := of_int 1.
Definition two : float64 := of_int 2.

(** The integer part of a finite float, rounded toward zero. *)
Definition truncate (s : bool) (m : positive) (e : Z) : Z :=
  let mag := if e <? 0 then Z.pos m / 2 ^ (- e) else Z.pos m * 2 ^ e in
  if s then - mag else mag.

(** The [int] a float converts to when its integer part fits. *)
Definition int_value (f : float64) : option Z :=
  match f with
  | S754_zero _ => Some 0
  | S754_finite s m e =>
      let t := truncate s m e in
      if fits t then Some t else None
  | S754_infinity _ | S754_nan => None
  end.

Section Conversion.

(** Go: "if the result type cannot represent the value the conversion
    succeeds but the result value is implementation-dependent".  The
    development is parametric in that value. *)
Variable unrepresentable : float64 -> Z.

(** [int(f)] for a [float64]. *)
Definition to_int (f : float64) : Z :=
  match int_value f with
  | Some t => t
  | None => unrepresentable f
  end.

End Conversion.

End Float64.

(** ** The observable world *)

(** What one [client.Get(url)] answers: an error, or a response with
    its status code. *)
Inductive get_result : Type :=
| GetError (err : string)
| GetResponse (StatusCode : Z).

(** What [os/exec] reports for one run of a command. *)
Inductive exec_result : Type :=
| StartFailed (err : string)
| WaitFailed (err : string) (output : string)
| Exited (status : Z) (output : string).

(** The non-nil errors [cmd.CombinedOutput()] can return. *)
Inductive exec_error : Type :=
| ErrStart (err : string)
| ErrWait (err : string)
| ExitError (status : Z).

(** The lines the program writes with [log.Printf]; the payload is the
    argument list of the format string. *)
Inductive log_line : Type :=
| LogStarting (url : string)
| LogWillExecute (path : string)
| LogChecking (interval : Z)
| LogUsingBackoff (initial : Z) (factor : Float64.float64) (maximum : Z)
| LogRequestFailed (attempt retries : Z) (err : string)
| LogBadStatus (attempt retries code : Z)
| LogDown (url : string)
| LogUp (url : string)
| LogBackoff (failures delay : Z)
| LogExecFailed (err : exec_error).

(** [cmd.CombinedOutput()] of [os/exec]: the captured output and the
    error.  The error is nil only for a command that started, was waited
    for and exited with status 0; a command that "starts but does not
    complete successfully" yields an [*ExitError]. *)
Definition CombinedOutput (r : exec_result) : string * option exec_error :=
  match r with
  | StartFailed err => (EmptyString, Some (ErrStart err))
  | WaitFailed err output => (output, Some (ErrWait err))
  | Exited status output =>
      (output, if status =? 0 then None else Some (ExitError status))
  end.

(** What [os.Stat] answers: an error, or the permission bits of the
    file mode. *)
Inductive stat_result : Type :=
| StatError (err : string)
| StatInfo (perm : Z).

(** The [log.Fatal] exits of [main]. *)
Inductive fatal : Type :=
| FatalNoURL
| FatalNoELF
| FatalStat (path err : string)
| FatalNotExecutable (path : string).

(** What the program does to the outside, one event per call:
    [client.Get], a deferred [resp.Body.Close], [log.Printf],
    [time.Sleep] (with its duration in nanoseconds), the launch of a
    command and [fmt.Println]. *)
Inductive event : Type :=
| EGet (url : string)
| EClose
| ELog (l : log_line)
| ESleep (d : Z)
| EExec (path : string)
| EPrint (s : string).

Definition is_get (e : event) : bool :=
  match e with EGet _ => true | _ => false end.

Definition is_log (e : event) : bool :=
  match e with ELog _ => true | _ => false end.

(** The requests of a trace, its sleeps, and what is left of it without
    the diagnostic log lines. *)
Definition gets (tr : list event) : list event := filter is_get tr.

Definition sleeps (tr : list event) : list Z :=
  flat_map (fun e => match e with ESleep d => [d] | _ => [] end) tr.

Definition silent (tr : list event) : list event :=
  filter (fun e => negb (is_log e)) tr.

(** ** The prober of the plain monitor ([src/main.go]) *)

Module Basic.

Section Prober.

Variable url : string.
Variable net : nat -> get_result.
Variable retries : Z.
Variable verbose : bool.

Fixpoint attempts (fuel : nat) (i : Z) (opened : nat)
  : option (bool * list event) :=
  match fuel with
  | O => None
  | S fuel' =>
      if i <? retries then
        match net (Z.to_nat i) with
        | GetError err =>
            let logged :=
              if verbose
              then [ELog (LogRequestFailed (wrap (i + 1)) retries err)]
              else [] in
            if i <? wrap (retries - 1) then
              match attempts fuel' (wrap (i + 1)) opened with
              | Some (down, tr) =>
                  Some (down, EGet url :: logged ++ ESleep (wrap (2 * Second)) :: tr)
              | None => None
              end
            else Some (true, EGet url :: logged ++ repeat EClose opened)
        | GetResponse code =>
            if (code <? 200) || (code >=? 400) then
              let logged :=
                if verbose
                then [ELog (LogBadStatus (wrap (i + 1)) retries code)]
                else [] in
              if i <? wrap (retries - 1) then
                match attempts fuel' (wrap (i + 1)) (S opened) with
                | Some (down, tr) =>
                    Some (down, EGet url :: logged ++ ESleep (wrap (2 * Second)) :: tr)
                | None => None
                end
              else Some (true, EGet url :: logged ++ repeat EClose (S opened))
            else Some (false, EGet url :: repeat EClose (S opened))
        end
      else Some (true, repeat EClose opened)
  end.

Definition checkWebsiteDown : bool * list event :=
  match attempts (S (Z.to_nat retries)) 0 0 with
  | Some r => r
  | None => (true, [])
  end.

End Prober.

End Basic.

(** ** The prober of the backoff monitor ([src/unnamed/part_000]) *)

Module Backoff.

Section Prober.

Variable url : string.
(** [net k] is the answer to the [k]-th request of this call. *)
Variable net : nat -> get_result.
Variable retries : Z.
Variable verbose : bool.

(** The [for i := 0; i < retries; i++] loop of [checkWebsiteDown] from
    iteration [i] on.  [opened] counts the pending
    [defer resp.Body.Close()], which run when the function returns.
    [None] is running out of fuel. *)
Fixpoint attempts (fuel : nat) (i : Z) (opened : nat)
  : option (bool * list event) :=
  match fuel with
  | O => None
  | S fuel' =>
      if i <? retries then
        match net (Z.to_nat i) with
        | GetError err =>
            let logged :=
              if verbose
              then [ELog (LogRequestFailed (wrap (i + 1)) retries err)]
              else [] in
            if i <? wrap (retries - 1) then
              match attempts fuel' (wrap (i + 1)) opened with
              | Some (down, tr) =>
                  Some (down, EGet url :: logged ++ ESleep (wrap (2 * Second)) :: tr)
              | None => None
              end
            else Some (true, EGet url :: logged ++ repeat EClose opened)
        | GetResponse code =>
            if (code <? 200) || (code >=? 400) then
              let logged :=
                if verbose
                then [ELog (LogBadStatus (wrap (i + 1)) retries code)]
                else [] in
              if i <? wrap (retries - 1) then
                match attempts fuel' (wrap (i + 1)) (S opened) with
                | Some (down, tr) =>
                    Some (down, EGet url :: logged ++ ESleep (wrap (2 * Second)) :: tr)
                | None => None
                end
              else Some (true, EGet url :: logged ++ repeat EClose (S opened))
            else Some (false, EGet url :: repeat EClose (S opened))
        end
      else Some (true, repeat EClose opened)
  end.

(** [checkWebsiteDown(url, client, retries, verbose)]: [true] is DOWN.
    The fuel is one more than the loop can use
    ([checkWebsiteDown_returns]). *)
Definition checkWebsiteDown : bool * list event :=
  match attempts (S (Z.to_nat retries)) 0 0 with
  | Some r => r
  | None => (true, [])
  end.

End Prober.


(** *** The monitor loop of [main] *)

(** The parsed command line. *)
Record flags : Type := {
  urlFlag : string;
  intervalFlag : Z;
  elfPathFlag : string;
  timeoutFlag : Z;
  verboseFlag : bool;
  retriesFlag : Z;
  maxBackoffFlag : Z;
  initialBackoffFlag : Z;
  backoffFactorFlag : Float64.float64
}.

(** The two local variables of [main] that outlive a cycle. *)
Record backoff : Type := {
  consecutiveFailures : Z;
  currentBackoff : Z
}.

(** What the outside answers during one cycle. *)
Record cycle_env : Type := {
  net : nat -> get_result;
  run : exec_result
}.

(** [executeELF(elfPath)]. *)
Definition executeELF (elfPath : string) (r : exec_result) : list event :=
  EExec elfPath ::
  match CombinedOutput r with
  | (_, Some err) => [ELog (LogExecFailed err)]
  | (output, None) => [EPrint "ELF binary output:"; EPrint output]
  end.

(** The flag validation at the head of [main]; [0111] is octal. *)
Definition startup (f : flags) (st : stat_result) : option fatal :=
  if (urlFlag f =? "")%string then Some FatalNoURL
  else if (elfPathFlag f =? "")%string then Some FatalNoELF
  else match st with
       | StatError err => Some (FatalStat (elfPathFlag f) err)
       | StatInfo perm =>
           if Z.land perm 73 =? 0
           then Some (FatalNotExecutable (elfPathFlag f))
           else None
       end.

Definition banner (f : flags) : list event :=
  [ELog (LogStarting (urlFlag f));
   ELog (LogWillExecute (elfPathFlag f));
   ELog (LogChecking (intervalFlag f));
   ELog (LogUsingBackoff (initialBackoffFlag f) (backoffFactorFlag f)
           (maxBackoffFlag f))].

(** [backoff] at the head of the loop. *)
Definition initial_state (f : flags) : backoff :=
  {| consecutiveFailures := 0; currentBackoff := initialBackoffFlag f |}.

Section Monitor.

Variable unrepresentable : Float64.float64 -> Z.
Variable f : flags.

(** [int(float64(currentBackoff) * *backoffFactorFlag)]. *)
Definition scaled (currentBackoff : Z) : Z :=
  Float64.to_int unrepresentable
    (Float64.mul (Float64.of_int currentBackoff) (backoffFactorFlag f)).

(** The body of the loop after the probe: [siteDown] is what
    [checkWebsiteDown] returned, [r] what the launched binary does. *)
Definition react (st : backoff) (siteDown : bool) (r : exec_result)
  : backoff * list event :=
  if siteDown then
    let tr := ELog (LogDown (urlFlag f)) :: executeELF (elfPathFlag f) r in
    let failures := wrap (consecutiveFailures st + 1) in
    if failures >? 1 then
      let newBackoff := scaled (currentBackoff st) in
      let current :=
        if newBackoff >? maxBackoffFlag f
        then maxBackoffFlag f
        else newBackoff in
      ({| consecutiveFailures := failures; currentBackoff := current |},
       tr ++ [ELog (LogBackoff failures current); ESleep (seconds current)])
    else
      ({| consecutiveFailures := failures;
          currentBackoff := currentBackoff st |},
       tr ++ [ESleep (seconds (intervalFlag f))])
  else
    ({| consecutiveFailures := 0; currentBackoff := initialBackoffFlag f |},
     (if verboseFlag f then [ELog (LogUp (urlFlag f))] else [])
       ++ [ESleep (seconds (intervalFlag f))]).

(** One iteration of the [for] loop. *)
Definition cycle (env : cycle_env) (st : backoff) : backoff * list event :=
  let (siteDown, probing) :=
    checkWebsiteDown (urlFlag f) (net env) (retriesFlag f) (verboseFlag f) in
  let (st', rest) := react st siteDown (run env) in
  (st', probing ++ rest).

(** The first [n] iterations of the loop, the [k]-th of them in the
    environment [world k]. *)
Fixpoint loop (world : nat -> cycle_env) (n : nat) (k : nat) (st : backoff)
  : backoff * list event :=
  match n with
  | O => (st, [])
  | S n' =>
      let (st', tr) := cycle (world k) st in
      let (st'', tr') := loop world n' (S k) st' in
      (st'', tr ++ tr')
  end.

(** [main] up to the end of its [n]-th cycle: a fatal exit at start-up,
    or the state and the trace so far. *)
Definition main (stat : stat_result) (world : nat -> cycle_env) (n : nat)
  : fatal + backoff * list event :=
  match startup f stat with
  | Some err => inl err
  | None =>
      let (st, tr) := loop world n 0%nat (initial_state f) in
      inr (st, banner f ++ tr)
  end.

(** The states the loop can be in at the head of a cycle. *)
Inductive reachable : backoff -> Prop :=
| reachable_initial : reachable (initial_state f)
| reachable_cycle (env : cycle_env) (st : backoff) :
    reachable st -> reachable (fst (cycle env st)).

End Monitor.

End Backoff.

(** ** The monitor loop of the plain monitor ([src/main.go]) *)

Module Plain.

(** The parsed command line. *)
Record flags : Type := {
  urlFlag : string;
  intervalFlag : Z;
  elfPathFlag : string;
  timeoutFlag : Z;
  verboseFlag : bool;
  retriesFlag : Z
}.

(** [executeELF(elfPath)]. *)
Definition executeELF (elfPath : string) (r : exec_result) : list event :=
  EExec elfPath ::
  match CombinedOutput r with
  | (_, Some err) => [ELog (LogExecFailed err)]
  | (output, None) => [EPrint "ELF binary output:"; EPrint output]
  end.

(** The flag validation at the head of [main]; [0111] is octal. *)
Definition startup (f : flags) (st : stat_result) : option fatal :=
  if (urlFlag f =? "")%string then Some FatalNoURL
  else if (elfPathFlag f =? "")%string then Some FatalNoELF
  else match st with
       | StatError err => Some (FatalStat (elfPathFlag f) err)
       | StatInfo perm =>
           if Z.land perm 73 =? 0
           then Some (FatalNotExecutable (elfPathFlag f))
           else None
       end.

Definition banner (f : flags) : list event :=
  [ELog (LogStarting (urlFlag f));
   ELog (LogWillExecute (elfPathFlag f));
   ELog (LogChecking (intervalFlag f))].

(** One iteration of the [for] loop. *)
Definition cycle (f : flags) (env : Backoff.cycle_env) : list event :=
  let (siteDown, probing) :=
    Basic.checkWebsiteDown (urlFlag f) (Backoff.net env) (retriesFlag f)
      (verboseFlag f) in
  probing
    ++ (if siteDown
        then ELog (LogDown (urlFlag f))
               :: executeELF (elfPathFlag f) (Backoff.run env)
        else if verboseFlag f then [ELog (LogUp (urlFlag f))] else [])
    ++ [ESleep (seconds (intervalFlag f))].

(** The first [n] iterations of the loop, the [k]-th of them in the
    environment [world k]. *)
Fixpoint loop (f : flags) (world : nat -> Backoff.cycle_env) (n k : nat)
  : list event :=
  match n with
  | O => []
  | S n' => cycle f (world k) ++ loop f world n' (S k)
  end.

(** [main] up to the end of its [n]-th cycle. *)
Definition main (f : flags) (stat : stat_result)
    (world : nat -> Backoff.cycle_env) (n : nat) : fatal + list event :=
  match startup f stat with
  | Some err => inl err
  | None => inr (banner f ++ loop f world n 0%nat)
  end.

End Plain.


(** * Vocabulary of the specification *)

Import Backoff.

(** The spec's reading of one attempt: no transport error and a status
    code in [200, 400). *)
Definition attempt_ok (r : get_result) : bool :=
  match r with
  | GetError _ => false
  | GetResponse code => (200 <=? code) && (code <? 400)
  end.

(** The spec's retry policy over the answers [net k], [net (k+1)], ...:
    up to [n] attempts, UP at the first that succeeds.  The result is the
    classification ([true] is DOWN) and the number of attempts made. *)
Fixpoint policy (net : nat -> get_result) (n k : nat) : bool * nat :=
  match n with
  | O => (true, O)
  | S n' =>
      if attempt_ok (net k) then (false, 1%nat)
      else let (down, made) := policy net n' (S k) in (down, S made)
  end.

(** [above m e x]: the float of mantissa [m] and exponent [e] is at
    least the integer [x], that is [x <= m * 2 ^ e]. *)
Definition above (m e x : Z) : Prop :=
  x * 2 ^ Z.max 0 (- e) <= m * 2 ^ Z.max 0 e.

(** The out-of-range conversion of the amd64 port of the gc compiler:
    the "integer indefinite" value of the processor. *)
Definition amd64 (_ : Float64.float64) : Z := int_min.

(** What the outside decides in one cycle, as the monitor loop sees it:
    the classification of the probe and the fate of the launched
    binary. *)
Definition outcome (f : flags) (env : cycle_env) : bool * exec_result :=
  (fst (checkWebsiteDown (urlFlag f) (net env) (retriesFlag f) (verboseFlag f)),
   run env).

(** The loop driven by a sequence of outcomes: the final state and the
    sleeps between cycles, one after the other. *)
Fixpoint reacts (unrepresentable : Float64.float64 -> Z) (f : flags)
    (outcomes : list (bool * exec_result)) (st : backoff)
  : backoff * list Z :=
  match outcomes with
  | [] => (st, [])
  | (siteDown, r) :: rest =>
      let (st', tr) := react unrepresentable f st siteDown r in
      let (st'', pauses) := reacts unrepresentable f rest st' in
      (st'', sleeps tr ++ pauses)
  end.

(** A command line with the given retry count and backoff parameters. *)
Definition flags_of (retries initial maximum : Z) (factor : Float64.float64)
  : flags :=
  {| urlFlag := "http://service.test/health";
     intervalFlag := 60;
     elfPathFlag := "/usr/local/bin/recover";
     timeoutFlag := 10;
     verboseFlag := false;
     retriesFlag := retries;
     maxBackoffFlag := maximum;
     initialBackoffFlag := initial;
     backoffFactorFlag := factor |}.

(** The configuration of the spec's scenarios C and D. *)
Definition scenario_flags : flags := flags_of 3 60 300 Float64.two.

(** [-initial-backoff 60 -max-backoff 30]: a cap below the initial
    delay. *)
Definition tight_cap_flags : flags := flags_of 3 60 30 Float64.two.

(** [-initial-backoff -60]: a negative initial delay. *)
Definition negative_delay_flags : flags := flags_of 3 (-60) 300 Float64.two.

(** [-retries 0]: no retry budget. *)
Definition no_budget_flags : flags := flags_of 0 60 3600 Float64.two.

(** An initial delay of 54 bits, with factor 1.0. *)
Definition large_delay_flags : flags :=
  flags_of 3 (2 ^ 53 + 1) (2 ^ 62) Float64.one.

(** The default delays with the factor 2^61. *)
Definition steep_factor_flags : flags :=
  flags_of 3 60 3600 (Float64.of_int (2 ^ 61)).

(** A cycle in which every request fails and the binary runs well. *)
Definition outage : cycle_env :=
  {| net := fun _ => GetError "connection refused";
     run := Exited 0 "restarted" |}.

(** [exactly m e x]: the float of mantissa [m] and exponent [e] is the
    integer [x], that is [m * 2 ^ e = x]. *)
Definition exactly (m e x : Z) : Prop :=
  x * 2 ^ Z.max 0 (- e) = m * 2 ^ Z.max 0 e.

(** The command line of the plain monitor that a command line of the
    backoff monitor contains. *)
Definition plain (f : flags) : Plain.flags :=
  {| Plain.urlFlag := urlFlag f;
     Plain.intervalFlag := intervalFlag f;
     Plain.elfPathFlag := elfPathFlag f;
     Plain.timeoutFlag := timeoutFlag f;
     Plain.verboseFlag := verboseFlag f;
     Plain.retriesFlag := retriesFlag f |}.

(** The closes, the log lines and the launches of a trace. *)
Definition is_close (e : event) : bool :=
  match e with EClose => true | _ => false end.

Definition closes (tr : list event) : list event := filter is_close tr.

Definition logs (tr : list event) : list event := filter is_log tr.

Definition is_exec (e : event) : bool :=
  match e with EExec _ => true | _ => false end.

Definition launches (tr : list event) : list event := filter is_exec tr.

(** A trace without its pauses and without the backoff log line. *)
Definition is_essential (e : event) : bool :=
  match e with
  | ESleep _ | ELog (LogBackoff _ _) => false
  | _ => true
  end.

Definition essential (tr : list event) : list event :=
  filter is_essential tr.

(** The number of responses among the answers [net k], ...,
    [net (k + n - 1)]. *)
Fixpoint responses (net : nat -> get_result) (k n : nat) : nat :=
  match n with
  | O => O
  | S n' =>
      match net k with
      | GetResponse _ => S (responses net (S k) n')
      | GetError _ => responses net (S k) n'
      end
  end.

(** The number of DOWN classifications at the head of a list. *)
Fixpoint leading_downs (l : list bool) : nat :=
  match l with
  | true :: l' => S (leading_downs l')
  | _ => O
  end.

(** No two DOWN classifications in a row, [prev] being the one before
    the list. *)
Fixpoint never_twice (prev : bool) (l : list bool) : bool :=
  match l with
  | [] => true
  | siteDown :: l' => negb (prev && siteDown) && never_twice siteDown l'
  end.

(** The classifications of the first [n] cycles of the loop, the latest
    first. *)
Definition history (f : flags) (world : nat -> cycle_env) (n : nat)
  : list bool :=
  rev (map (fun k => fst (outcome f (world k))) (seq 0 n)).

(** The events [checkWebsiteDown] can produce: requests to its url,
    closes, its two log lines and the pause of two seconds. *)
Definition probe_event (url : string) (retries : Z) (e : event) : Prop :=
  match e with
  | EGet u => u = url
  | EClose => True
  | ELog (LogRequestFailed _ n _) | ELog (LogBadStatus _ n _) => n = retries
  | ESleep d => d = 2 * Second
  | _ => False
  end.

(** What a run of the loop from iteration [i] leaves in its trace, in
    terms of the number of requests it made. *)
Record probe_counts (net : nat -> get_result) (verbose : bool) (i : Z)
    (opened : nat) (down : bool) (tr : list event) : Prop := {
  counts_sleeps : List.length (sleeps tr) = pred (List.length (gets tr));
  counts_closes :
    exists body,
      tr = (body
            ++ repeat EClose
                 (opened
                  + responses net (Z.to_nat i) (List.length (gets tr))))%list
      /\ closes body = [] /\ gets body = gets tr;
  counts_logs :
    List.length (logs tr)
    = if verbose
      then if down then List.length (gets tr) else pred (List.length (gets tr))
      else O
}.

(** * Properties *)

(** ** Integers *)

Lemma wrap_small (z : Z) : is_int z -> wrap z = z.
Proof.
  unfold is_int, int_min, int_max, wrap; intros H.
  rewrite Z.mod_small; lia.
Qed.

Lemma wrap_is_int (z : Z) : is_int (wrap z).
Proof.
  unfold is_int, int_min, int_max, wrap.
  pose proof (Z.mod_pos_bound (z + 2 ^ 63) (2 ^ 64) ltac:(lia)); lia.
Qed.

Lemma wrap_int_max_succ : wrap (int_max + 1) = int_min.
Proof. reflexivity. Qed.

Lemma fits_is_int (z : Z) : fits z = true <-> is_int z.
Proof.
  unfold fits, is_int.
  rewrite andb_true_iff, !Z.leb_le; tauto.
Qed.

(** ** The prober *)

Lemma bad_status_not_ok (code : Z) :
  (code <? 200) || (code >=? 400) = negb (attempt_ok (GetResponse code)).
Proof.
  unfold attempt_ok.
  destruct (Z.ltb_spec code 200), (Z.leb_spec 200 code); try lia;
    destruct (Z.ltb_spec code 400); unfold Z.geb;
    destruct (Z.compare_spec code 400); simpl; try reflexivity; lia.
Qed.

Lemma gets_app (a b : list event) : gets (a ++ b) = (gets a ++ gets b)%list.
Proof. apply filter_app. Qed.

Lemma gets_closes (n : nat) : gets (repeat EClose n) = [].
Proof. induction n; simpl; auto. Qed.

Lemma gets_logged (b : bool) (l : log_line) :
  gets (if b then [ELog l] else []) = [].
Proof. destruct b; reflexivity. Qed.

Lemma gets_get (u : string) (tr : list event) :
  gets (EGet u :: tr) = EGet u :: gets tr.
Proof. reflexivity. Qed.

Lemma gets_sleep (d : Z) (tr : list event) : gets (ESleep d :: tr) = gets tr.
Proof. reflexivity. Qed.

Create Rewrite HintDb trace.
#[local] Hint Rewrite gets_app gets_closes gets_logged gets_get gets_sleep
  : trace.

(** Counting the requests of a trace built by one iteration. *)
Ltac count_gets :=
  autorewrite with trace; cbn; congruence.

Section ProberFacts.

Variable url : string.
Variable net : nat -> get_result.
Variable retries : Z.
Variable verbose : bool.

Hypothesis retries_int : retries <= int_max.

(** With more fuel than iterations left, the loop of the source returns,
    and it returns what the retry policy prescribes. *)
Lemma attempts_policy (fuel : nat) :
  forall (i : Z) (opened : nat),
    0 <= i <= Z.max 0 retries ->
    (Z.to_nat (retries - i) < fuel)%nat ->
    exists tr,
      attempts url net retries verbose fuel i opened
        = Some (fst (policy net (Z.to_nat (retries - i)) (Z.to_nat i)), tr)
      /\ List.length (gets tr)
         = snd (policy net (Z.to_nat (retries - i)) (Z.to_nat i)).
Proof.
  unfold int_max in retries_int.
  induction fuel as [|fuel IH]; intros i opened Hi Hfuel; [lia|].
  cbn [attempts].
  destruct (Z.ltb_spec i retries) as [Hlt|Hge].
  2:{ replace (Z.to_nat (retries - i)) with O by lia.
      eexists; split; [reflexivity|]. count_gets. }
  assert (Hw1 : wrap (retries - 1) = retries - 1)
    by (apply wrap_small; unfold is_int, int_min, int_max; lia).
  assert (Hw2 : wrap (i + 1) = i + 1)
    by (apply wrap_small; unfold is_int, int_min, int_max; lia).
  rewrite Hw1, Hw2.
  replace (Z.to_nat (retries - i)) with (S (Z.to_nat (retries - (i + 1))))
    in * by lia.
  cbn [policy].
  replace (S (Z.to_nat i)) with (Z.to_nat (i + 1)) by lia.
  assert (Hlast : ~ i < retries - 1 ->
            policy net (Z.to_nat (retries - (i + 1))) (Z.to_nat (i + 1))
            = (true, O)).
  { intros H. replace (Z.to_nat (retries - (i + 1))) with O by lia.
    reflexivity. }
  destruct (net (Z.to_nat i)) as [err|code] eqn:Hnet.
  - cbn [attempt_ok].
    destruct (Z.ltb_spec i (retries - 1)) as [Hmore|Hlastit].
    + destruct (IH (i + 1) opened ltac:(lia) ltac:(lia)) as (tr & Htr & Hlen).
      rewrite Htr.
      destruct (policy net _ _) as [down made]; cbn [fst snd] in *.
      eexists; split; [reflexivity|].
      count_gets.
    + rewrite (Hlast ltac:(lia)). cbn [fst snd].
      eexists; split; [reflexivity|].
      count_gets.
  - rewrite bad_status_not_ok.
    destruct (attempt_ok (GetResponse code)) eqn:Hok; cbn [negb].
    + eexists; split; [reflexivity|].
      count_gets.
    + destruct (Z.ltb_spec i (retries - 1)) as [Hmore|Hlastit].
      * destruct (IH (i + 1) (S opened) ltac:(lia) ltac:(lia))
          as (tr & Htr & Hlen).
        rewrite Htr.
        destruct (policy net _ _) as [down made]; cbn [fst snd] in *.
        eexists; split; [reflexivity|].
        count_gets.
      * rewrite (Hlast ltac:(lia)). cbn [fst snd].
        eexists; split; [reflexivity|].
        count_gets.
Qed.

End ProberFacts.

(** *** The retry policy *)

Lemma policy_all_fail (net : nat -> get_result) (n : nat) :
  forall k,
    (forall j, (j < n)%nat -> attempt_ok (net (k + j)%nat) = false) ->
    policy net n k = (true, n).
Proof.
  induction n as [|n IH]; intros k Hall; [reflexivity|].
  cbn [policy].
  pose proof (Hall O ltac:(lia)) as H0. rewrite Nat.add_0_r in H0.
  rewrite H0, IH; [reflexivity|].
  intros j Hj. replace (S k + j)%nat with (k + S j)%nat by lia.
  apply Hall; lia.
Qed.

Lemma policy_first (net : nat -> get_result) (n : nat) :
  forall k j,
    (j < n)%nat ->
    attempt_ok (net (k + j)%nat) = true ->
    (forall j', (j' < j)%nat -> attempt_ok (net (k + j')%nat) = false) ->
    policy net n k = (false, S j).
Proof.
  induction n as [|n IH]; intros k j Hj Hok Hbefore; [lia|].
  cbn [policy].
  destruct j as [|j].
  - rewrite Nat.add_0_r in Hok. now rewrite Hok.
  - pose proof (Hbefore O ltac:(lia)) as H0. rewrite Nat.add_0_r in H0.
    rewrite H0, (IH (S k) j); [reflexivity|lia| |].
    + now replace (S k + j)%nat with (k + S j)%nat by lia.
    + intros j' Hj'. replace (S k + j')%nat with (k + S j')%nat by lia.
      apply Hbefore; lia.
Qed.

Lemma policy_down (net : nat -> get_result) (n : nat) :
  forall k,
    fst (policy net n k) = true <->
    (forall j, (j < n)%nat -> attempt_ok (net (k + j)%nat) = false).
Proof.
  induction n as [|n IH]; intros k; cbn [policy].
  - split; [intros _ j Hj; lia|reflexivity].
  - destruct (attempt_ok (net k)) eqn:Hk.
    + split; [discriminate|].
      intros Hall. specialize (Hall O ltac:(lia)).
      rewrite Nat.add_0_r in Hall. congruence.
    + specialize (IH (S k)).
      destruct (policy net n (S k)) as [down made]; cbn [fst] in *.
      rewrite IH. split; intros Hall j Hj.
      * destruct j as [|j]; [now rewrite Nat.add_0_r|].
        replace (k + S j)%nat with (S k + j)%nat by lia. apply Hall; lia.
      * replace (S k + j)%nat with (k + S j)%nat by lia. apply Hall; lia.
Qed.

Lemma policy_up (net : nat -> get_result) (n k : nat) :
  fst (policy net n k) = false <->
  (exists j, (j < n)%nat /\ attempt_ok (net (k + j)%nat) = true).
Proof.
  split.
  - intros Hup.
    destruct (Forall_Exists_dec (fun j => attempt_ok (net (k + j)%nat) = false)
                (fun j => bool_dec _ _) (seq 0 n)) as [Hall|Hex].
    + rewrite Forall_forall in Hall.
      assert (Hdown : fst (policy net n k) = true).
      { apply policy_down. intros j Hj. apply Hall, in_seq. lia. }
      congruence.
    + rewrite Exists_exists in Hex. destruct Hex as (j & Hin & Hj).
      apply in_seq in Hin. exists j. split; [lia|].
      now destruct (attempt_ok (net (k + j)%nat)).
  - intros (j & Hj & Hok).
    destruct (fst (policy net n k)) eqn:Hdown; [|reflexivity].
    rewrite policy_down in Hdown. rewrite (Hdown j Hj) in Hok. discriminate.
Qed.

(** *** [checkWebsiteDown] returns *)

Lemma checkWebsiteDown_policy (url : string) (net : nat -> get_result)
    (retries : Z) (verbose : bool) :
  retries <= int_max ->
  fst (checkWebsiteDown url net retries verbose)
    = fst (policy net (Z.to_nat retries) O)
  /\ List.length (gets (snd (checkWebsiteDown url net retries verbose)))
    = snd (policy net (Z.to_nat retries) O).
Proof.
  intros Hint. unfold checkWebsiteDown.
  destruct (attempts_policy url net retries verbose Hint
              (S (Z.to_nat retries)) 0 0 ltac:(lia)
              ltac:(rewrite Z.sub_0_r; lia)) as (tr & Htr & Hlen).
  rewrite Z.sub_0_r in *. change (Z.to_nat 0) with O in *.
  rewrite Htr. now split.
Qed.

Lemma attempts_more_fuel (url : string) (net : nat -> get_result)
    (retries : Z) (verbose : bool) (fuel : nat) :
  forall i opened r,
    attempts url net retries verbose fuel i opened = Some r ->
    attempts url net retries verbose (S fuel) i opened = Some r.
Proof.
  induction fuel as [|fuel IH]; intros i opened r; [discriminate|].
  remember (S fuel) as fuel1 eqn:Hfuel1.
  rewrite Hfuel1 at 1. cbn [attempts].
  destruct (i <? retries); [|auto].
  destruct (net (Z.to_nat i)) as [err|code].
  - destruct (i <? wrap (retries - 1)); [|auto].
    destruct (attempts url net retries verbose fuel (wrap (i + 1)) opened)
      as [[down tr]|] eqn:Hrec; [|discriminate].
    subst fuel1. now rewrite (IH _ _ _ Hrec).
  - destruct ((code <? 200) || (code >=? 400)); [|auto].
    destruct (i <? wrap (retries - 1)); [|auto].
    destruct (attempts url net retries verbose fuel (wrap (i + 1)) (S opened))
      as [[down tr]|] eqn:Hrec; [|discriminate].
    subst fuel1. now rewrite (IH _ _ _ Hrec).
Qed.

(** Whatever fuel beyond the number of iterations is given, the loop
    returns the value of [checkWebsiteDown]: the default of its
    definition is never taken. *)
Lemma checkWebsiteDown_returns (url : string) (net : nat -> get_result)
    (retries : Z) (verbose : bool) (fuel : nat) :
  retries <= int_max ->
  (Z.to_nat retries < fuel)%nat ->
  attempts url net retries verbose fuel 0 0
    = Some (checkWebsiteDown url net retries verbose).
Proof.
  intros Hint Hfuel. unfold checkWebsiteDown.
  destruct (attempts_policy url net retries verbose Hint
              (S (Z.to_nat retries)) 0 0 ltac:(lia)
              ltac:(rewrite Z.sub_0_r; lia)) as (tr & Htr & _).
  rewrite Htr.
  replace fuel with ((fuel - S (Z.to_nat retries)) + S (Z.to_nat retries))%nat
    by lia.
  induction (fuel - S (Z.to_nat retries))%nat as [|extra IH]; [exact Htr|].
  now apply attempts_more_fuel.
Qed.

(** With no budget the loop body never runs: no request is made and the
    function falls through to its final [return true]. *)
Lemma checkWebsiteDown_no_budget (url : string) (net : nat -> get_result)
    (retries : Z) (verbose : bool) :
  retries <= 0 -> checkWebsiteDown url net retries verbose = (true, []).
Proof.
  intros Hle. unfold checkWebsiteDown. cbn [attempts].
  destruct (Z.ltb_spec 0 retries); [lia|reflexivity].
Qed.

(** *** Verbosity and the two variants *)

Lemma silent_app (a b : list event) :
  silent (a ++ b) = (silent a ++ silent b)%list.
Proof. apply filter_app. Qed.

Lemma silent_logged (b : bool) (l : log_line) :
  silent (if b then [ELog l] else []) = [].
Proof. destruct b; reflexivity. Qed.

(** Two runs of the loop that differ in [verbose] only stay in step:
    both return or neither does, with the same classification and the
    same events apart from log lines. *)
Lemma attempts_verbose (url : string) (net : nat -> get_result)
    (retries : Z) (v1 v2 : bool) (fuel : nat) :
  forall i opened,
    match attempts url net retries v1 fuel i opened,
          attempts url net retries v2 fuel i opened with
    | Some (d1, t1), Some (d2, t2) => d1 = d2 /\ silent t1 = silent t2
    | None, None => True
    | _, _ => False
    end.
Proof.
  induction fuel as [|fuel IH]; intros i opened; cbn [attempts]; [exact I|].
  destruct (i <? retries); [|now split].
  destruct (net (Z.to_nat i)) as [err|code].
  - destruct (i <? wrap (retries - 1)).
    + specialize (IH (wrap (i + 1)) opened).
      destruct (attempts url net retries v1 fuel _ _) as [[d1 t1]|],
               (attempts url net retries v2 fuel _ _) as [[d2 t2]|];
        try contradiction; [|exact I].
      destruct IH as [-> Ht]. split; [reflexivity|].
      change (?e :: ?a ++ ?b) with ([e] ++ a ++ b)%list.
      rewrite !silent_app, !silent_logged.
      cbn [silent filter is_log negb app]. fold (silent t1) (silent t2).
      now rewrite Ht.
    + split; [reflexivity|].
      change (?e :: ?a ++ ?b) with ([e] ++ a ++ b)%list.
      now rewrite !silent_app, !silent_logged.
  - destruct ((code <? 200) || (code >=? 400)); [|now split].
    destruct (i <? wrap (retries - 1)).
    + specialize (IH (wrap (i + 1)) (S opened)).
      destruct (attempts url net retries v1 fuel _ _) as [[d1 t1]|],
               (attempts url net retries v2 fuel _ _) as [[d2 t2]|];
        try contradiction; [|exact I].
      destruct IH as [-> Ht]. split; [reflexivity|].
      change (?e :: ?a ++ ?b) with ([e] ++ a ++ b)%list.
      rewrite !silent_app, !silent_logged.
      cbn [silent filter is_log negb app]. fold (silent t1) (silent t2).
      now rewrite Ht.
    + split; [reflexivity|].
      change (?e :: ?a ++ ?b) with ([e] ++ a ++ b)%list.
      now rewrite !silent_app, !silent_logged.
Qed.

(** The loop of [src/main.go] and the loop of [src/unnamed/part_000]
    compute the same thing for every amount of fuel. *)
Lemma attempts_agree (url : string) (net : nat -> get_result)
    (retries : Z) (verbose : bool) (fuel : nat) :
  forall i opened,
    Basic.attempts url net retries verbose fuel i opened
    = Backoff.attempts url net retries verbose fuel i opened.
Proof.
  induction fuel as [|fuel IH]; intros i opened; [reflexivity|].
  cbn [Basic.attempts Backoff.attempts].
  now rewrite !IH.
Qed.

(** ** Floating point *)

Import Float64.

Lemma fexp_eq (e : Z) : fexp prec emax e = Z.max (e - 53) (- 1074).
Proof. reflexivity. Qed.

Lemma pow2_pos (k : Z) : 0 <= k -> 0 < 2 ^ k.
Proof. intros; apply Z.pow_pos_nonneg; lia. Qed.

Lemma pow2_split (a b : Z) : 0 <= a -> 0 <= b -> 2 ^ (a + b) = 2 ^ a * 2 ^ b.
Proof. intros; apply Z.pow_add_r; lia. Qed.

Lemma digits2_pos_bounds (p : positive) :
  2 ^ (Z.pos (digits2_pos p) - 1) <= Z.pos p < 2 ^ Z.pos (digits2_pos p).
Proof.
  induction p as [p IH|p IH|]; cbn [digits2_pos]; [| |cbn; lia].
  all: rewrite Pos2Z.inj_succ;
    replace (Z.succ (Z.pos (digits2_pos p)) - 1)
      with (Z.succ (Z.pos (digits2_pos p) - 1)) by lia;
    rewrite !Z.pow_succ_r by lia; lia.
Qed.

Lemma Zdigits2_bounds (m : Z) :
  0 < m -> 1 <= Zdigits2 m /\ 2 ^ (Zdigits2 m - 1) <= m < 2 ^ Zdigits2 m.
Proof.
  destruct m as [|p|p]; try lia. intros _. cbn [Zdigits2].
  split; [lia|apply digits2_pos_bounds].
Qed.

Lemma Zdigits2_unique (m k : Z) :
  0 < m -> 2 ^ (k - 1) <= m < 2 ^ k -> Zdigits2 m = k.
Proof.
  intros Hm Hk.
  destruct (Zdigits2_bounds m Hm) as (Hd1 & Hd).
  assert (1 <= k).
  { destruct (Z.le_gt_cases 1 k) as [|Hk0]; [assumption|].
    assert (2 ^ k <= 2 ^ 0) by (apply Z.pow_le_mono_r; lia).
    change (2 ^ 0) with 1 in *. lia. }
  destruct (Z.lt_trichotomy (Zdigits2 m) k) as [Hlt|[Heq|Hgt]];
    [|assumption|].
  - assert (2 ^ Zdigits2 m <= 2 ^ (k - 1)) by (apply Z.pow_le_mono_r; lia).
    lia.
  - assert (2 ^ k <= 2 ^ (Zdigits2 m - 1)) by (apply Z.pow_le_mono_r; lia).
    lia.
Qed.

(** *** Shifting the mantissa right *)

Lemma shr_1_m (mrs : shr_record) :
  0 <= shr_m mrs -> shr_m (shr_1 mrs) = shr_m mrs / 2.
Proof.
  destruct mrs as [m r s]; cbn [shr_m]; intros Hm.
  rewrite <- Z.div2_div.
  destruct m as [|[p|p|]|p]; try reflexivity; lia.
Qed.

Lemma iter_shr_1_m (p : positive) :
  forall mrs,
    0 <= shr_m mrs ->
    shr_m (iter_pos shr_1 p mrs) = shr_m mrs / 2 ^ Z.pos p.
Proof.
  induction p as [p IH|p IH|]; intros mrs Hm; cbn [iter_pos].
  - assert (H1 : 0 <= shr_m (shr_1 mrs))
      by (rewrite shr_1_m by assumption; apply Z.div_pos; lia).
    assert (H2 : 0 <= shr_m (iter_pos shr_1 p (shr_1 mrs)))
      by (rewrite IH by assumption; apply Z.div_pos;
          [assumption|apply pow2_pos; lia]).
    rewrite IH, IH, shr_1_m by assumption.
    pose proof (pow2_pos (Z.pos p) ltac:(lia)).
    rewrite !Z.div_div by lia. f_equal.
    replace (Z.pos p~1) with (1 + Z.pos p + Z.pos p) by lia.
    rewrite !pow2_split by lia. change (2 ^ 1) with 2. ring.
  - assert (H2 : 0 <= shr_m (iter_pos shr_1 p mrs))
      by (rewrite IH by assumption; apply Z.div_pos;
          [assumption|apply pow2_pos; lia]).
    rewrite IH, IH by assumption.
    pose proof (pow2_pos (Z.pos p) ltac:(lia)).
    rewrite !Z.div_div by lia. f_equal.
    replace (Z.pos p~0) with (Z.pos p + Z.pos p) by lia.
    rewrite !pow2_split by lia. reflexivity.
  - now rewrite shr_1_m.
Qed.

Lemma shr_spec (mrs : shr_record) (e n : Z) :
  0 <= shr_m mrs ->
  shr_m (fst (shr mrs e n)) = shr_m mrs / 2 ^ Z.max 0 n
  /\ snd (shr mrs e n) = e + Z.max 0 n.
Proof.
  intros Hm. destruct n as [|p|p]; cbn [shr fst snd].
  - cbn. rewrite Z.div_1_r. lia.
  - rewrite iter_shr_1_m by assumption.
    replace (Z.max 0 (Z.pos p)) with (Z.pos p) by lia. split; reflexivity.
  - replace (Z.max 0 (Z.neg p)) with 0 by lia.
    cbn. rewrite Z.div_1_r. lia.
Qed.

Lemma shr_fexp_spec (m e : Z) (l : location) :
  0 <= m ->
  let n := Z.max 0 (fexp prec emax (Zdigits2 m + e) - e) in
  shr_m (fst (shr_fexp prec emax m e l)) = m / 2 ^ n
  /\ snd (shr_fexp prec emax m e l) = e + n.
Proof.
  intros Hm n. unfold shr_fexp.
  assert (Hrec : shr_m (shr_record_of_loc m l) = m)
    by (destruct l as [|[]]; reflexivity).
  destruct (shr_spec (shr_record_of_loc m l) e
              (fexp prec emax (Zdigits2 m + e) - e)) as (H1 & H2);
    [lia|].
  rewrite Hrec in H1. now split.
Qed.

Lemma round_nearest_even_bounds (m : Z) (l : location) :
  m <= round_nearest_even m l <= m + 1.
Proof.
  destruct l as [|[]]; cbn [round_nearest_even]; try lia.
  destruct (Z.even m); lia.
Qed.

(** *** Values bounded from below *)

Lemma above_scaled (m e x k : Z) :
  0 <= k -> 0 <= e + k ->
  above m e x <-> x * 2 ^ k <= m * 2 ^ (e + k).
Proof.
  intros Hk Hek. unfold above.
  destruct (Z.le_gt_cases 0 e) as [He|He].
  - replace (Z.max 0 (- e)) with 0 by lia.
    replace (Z.max 0 e) with e by lia.
    rewrite pow2_split by lia. change (2 ^ 0) with 1.
    pose proof (pow2_pos k Hk). pose proof (pow2_pos e He). nia.
  - replace (Z.max 0 (- e)) with (- e) by lia.
    replace (Z.max 0 e) with 0 by lia.
    replace k with (- e + (e + k)) at 1 by lia.
    rewrite pow2_split by lia. change (2 ^ 0) with 1.
    pose proof (pow2_pos (- e) ltac:(lia)).
    pose proof (pow2_pos (e + k) Hek). nia.
Qed.

Lemma above_mono (m m' e x : Z) : m <= m' -> above m e x -> above m' e x.
Proof.
  unfold above; intros Hm H.
  pose proof (pow2_pos (Z.max 0 e) ltac:(lia)). nia.
Qed.

Lemma above_halve (m e x : Z) : above (2 * m) e x -> above m (e + 1) x.
Proof.
  set (k := Z.max 0 (- e) + 1).
  rewrite (above_scaled (2 * m) e x k), (above_scaled m (e + 1) x k)
    by (unfold k; lia).
  replace (e + 1 + k) with (1 + (e + k)) by lia.
  rewrite (pow2_split 1) by (unfold k; lia). change (2 ^ 1) with 2. lia.
Qed.

Lemma above_mul (m1 e1 m2 e2 x : Z) :
  0 <= x -> above m1 e1 x -> above m2 e2 1 -> above (m1 * m2) (e1 + e2) x.
Proof.
  intros Hx H1 H2.
  set (k1 := Z.max 0 (- e1)). set (k2 := Z.max 0 (- e2)).
  rewrite (above_scaled m1 e1 x k1) in H1 by (unfold k1; lia).
  rewrite (above_scaled m2 e2 1 k2) in H2 by (unfold k2; lia).
  rewrite (above_scaled _ _ x (k1 + k2)) by (unfold k1, k2; lia).
  replace (e1 + e2 + (k1 + k2)) with ((e1 + k1) + (e2 + k2)) by lia.
  rewrite !pow2_split by (unfold k1, k2; lia).
  pose proof (pow2_pos k1 ltac:(unfold k1; lia)).
  pose proof (pow2_pos k2 ltac:(unfold k2; lia)).
  pose proof (pow2_pos (e1 + k1) ltac:(unfold k1; lia)).
  pose proof (pow2_pos (e2 + k2) ltac:(unfold k2; lia)).
  assert (0 <= m1) by nia.
  nia.
Qed.

(** Dropping the low bits of a mantissa keeps it above every integer
    of at most 53 bits, when as many bits are dropped as [fexp] asks. *)
Lemma above_shift (M E x : Z) :
  0 < M -> 1 <= x <= 2 ^ 53 -> above M E x ->
  let n := Z.max 0 (fexp prec emax (Zdigits2 M + E) - E) in
  above (M / 2 ^ n) (E + n) x.
Proof.
  intros HM Hx Habove. rewrite fexp_eq.
  set (n := Z.max 0 _).
  assert (Hdef : n = Z.max 0 (Z.max (Zdigits2 M + E - 53) (- 1074) - E))
    by reflexivity.
  clearbody n. cbv zeta.
  destruct (Zdigits2_bounds M HM) as (Hd1 & Hd).
  destruct (Z.le_gt_cases n 0) as [Hn|Hn].
  { replace n with 0 by lia. cbn. now rewrite Z.div_1_r, Z.add_0_r. }
  pose proof (pow2_pos n ltac:(lia)) as Hpn.
  destruct (Z.le_gt_cases (E + n) 0) as [He|He].
  - assert (HE : E < 0) by lia.
    unfold above in *.
    replace (Z.max 0 (- E)) with (- E) in Habove by lia.
    replace (Z.max 0 E) with 0 in Habove by lia.
    replace (Z.max 0 (- (E + n))) with (- (E + n)) by lia.
    replace (Z.max 0 (E + n)) with 0 by lia.
    change (2 ^ 0) with 1 in *. rewrite Z.mul_1_r in *.
    apply Z.div_le_lower_bound; [assumption|].
    replace (- E) with (n + - (E + n)) in Habove by lia.
    rewrite pow2_split in Habove by lia. lia.
  - assert (Hn53 : n = Zdigits2 M - 53) by lia.
    assert (H52 : 2 ^ 52 <= M / 2 ^ n).
    { apply Z.div_le_lower_bound; [assumption|].
      rewrite <- pow2_split by lia.
      replace (n + 52) with (Zdigits2 M - 1) by lia. lia. }
    unfold above.
    replace (Z.max 0 (- (E + n))) with 0 by lia.
    replace (Z.max 0 (E + n)) with (1 + (E + n - 1)) by lia.
    rewrite pow2_split by lia. change (2 ^ 0) with 1. change (2 ^ 1) with 2.
    pose proof (pow2_pos (E + n - 1) ltac:(lia)).
    change (2 ^ 53) with (2 * 2 ^ 52) in Hx. nia.
Qed.

(** *** Rounding never falls below a representable integer *)

(** The number of bits [fexp] drops grows by at most one when the
    number of digits grows by one. *)
Lemma fexp_succ (k : Z) :
  fexp prec emax k <= fexp prec emax (k + 1) <= fexp prec emax k + 1.
Proof. rewrite !fexp_eq. lia. Qed.

Lemma round_above (sx : bool) (M : positive) (E x : Z) :
  1 <= x <= 2 ^ 53 ->
  above (Z.pos M) E x ->
  match binary_round_aux prec emax sx (Z.pos M) E loc_Exact with
  | S754_finite s m e => s = sx /\ above (Z.pos m) e x
  | S754_infinity s => s = sx
  | _ => False
  end.
Proof.
  intros Hx Habove.
  destruct (Zdigits2_bounds (Z.pos M) ltac:(lia)) as (Hd1 & Hd).
  (* the value is at least one, so the first shift leaves digits *)
  assert (Hval : 1 <= Zdigits2 (Z.pos M) + E).
  { destruct (Z.le_gt_cases 0 E) as [|HE]; [lia|].
    unfold above in Habove.
    replace (Z.max 0 (- E)) with (- E) in Habove by lia.
    replace (Z.max 0 E) with 0 in Habove by lia.
    change (2 ^ 0) with 1 in Habove.
    pose proof (pow2_pos (- E) ltac:(lia)).
    assert (2 ^ (- E) < 2 ^ Zdigits2 (Z.pos M)) by nia.
    apply Z.pow_lt_mono_r_iff in H0; lia. }
  unfold binary_round_aux.
  pose proof (shr_fexp_spec (Z.pos M) E loc_Exact ltac:(lia)) as Hfirst.
  pose proof (above_shift (Z.pos M) E x ltac:(lia) Hx Habove) as Hshift.
  cbv zeta in Hfirst, Hshift.
  destruct (shr_fexp prec emax (Z.pos M) E loc_Exact) as [mrs1 e1].
  cbn [fst snd] in Hfirst. destruct Hfirst as (Hm1 & He1).
  set (n := Z.max 0 (fexp prec emax (Zdigits2 (Z.pos M) + E) - E)) in *.
  assert (Hn : 0 <= n < Zdigits2 (Z.pos M))
    by (unfold n; rewrite fexp_eq; lia).
  pose proof (pow2_pos n ltac:(lia)) as Hpn.
  set (m1 := shr_m mrs1) in *.
  (* the digits of the shifted mantissa *)
  assert (Hm1d : 2 ^ (Zdigits2 (Z.pos M) - n - 1) <= m1
                 < 2 ^ (Zdigits2 (Z.pos M) - n)).
  { rewrite Hm1. split.
    - apply Z.div_le_lower_bound; [assumption|].
      rewrite <- pow2_split by lia.
      replace (n + (Zdigits2 (Z.pos M) - n - 1))
        with (Zdigits2 (Z.pos M) - 1) by lia. lia.
    - apply Z.div_lt_upper_bound; [assumption|].
      rewrite <- pow2_split by lia.
      replace (n + (Zdigits2 (Z.pos M) - n)) with (Zdigits2 (Z.pos M)) by lia.
      lia. }
  assert (Hm1pos : 0 < m1)
    by (pose proof (pow2_pos (Zdigits2 (Z.pos M) - n - 1) ltac:(lia)); lia).
  pose proof (Zdigits2_unique m1 _ Hm1pos Hm1d) as Hd1'.
  (* rounding *)
  pose proof (round_nearest_even_bounds m1 (loc_of_shr_record mrs1)) as Hrnd.
  set (m2 := round_nearest_even m1 (loc_of_shr_record mrs1)) in *.
  assert (Hm2 : above m2 e1 x).
  { apply above_mono with (m := m1); [lia|]. rewrite He1, Hm1. exact Hshift. }
  pose proof (shr_fexp_spec m2 e1 loc_Exact ltac:(lia)) as Hsecond.
  cbv zeta in Hsecond.
  destruct (shr_fexp prec emax m2 e1 loc_Exact) as [mrs3 e3].
  cbn [fst snd] in Hsecond. destruct Hsecond as (Hm3 & He3).
  (* the second shift drops nothing, or the single zero bit of a power
     of two *)
  assert (Hfinal : above (shr_m mrs3) e3 x /\ 0 < shr_m mrs3).
  { assert (Hfix : fexp prec emax (Zdigits2 m1 + e1) - e1 <= 0)
      by (rewrite Hd1', He1; unfold n; rewrite !fexp_eq; lia).
    destruct (Z.lt_ge_cases m2 (2 ^ (Zdigits2 (Z.pos M) - n))) as [Hsame|Hpow].
    - assert (Hd2 : Zdigits2 m2 = Zdigits2 m1)
        by (rewrite Hd1'; apply Zdigits2_unique; lia).
      rewrite Hd2 in Hm3, He3.
      replace (Z.max 0 (fexp prec emax (Zdigits2 m1 + e1) - e1)) with 0
        in Hm3, He3 by lia.
      change (2 ^ 0) with 1 in Hm3. rewrite Z.div_1_r in Hm3.
      rewrite Hm3, He3, Z.add_0_r. split; [assumption|lia].
    - assert (Hm2eq : m2 = 2 ^ (Zdigits2 (Z.pos M) - n)) by lia.
      assert (Hd2 : Zdigits2 m2 = Zdigits2 m1 + 1).
      { rewrite Hd1'. apply Zdigits2_unique; [lia|].
        replace (Zdigits2 (Z.pos M) - n + 1 - 1)
          with (Zdigits2 (Z.pos M) - n) by lia.
        rewrite (pow2_split _ 1) by lia. change (2 ^ 1) with 2. lia. }
      rewrite Hd2 in Hm3, He3.
      pose proof (fexp_succ (Zdigits2 m1 + e1)) as Hsucc.
      replace (Zdigits2 m1 + 1 + e1) with (Zdigits2 m1 + e1 + 1)
        in Hm3, He3 by lia.
      assert (Hhalf : m2 = 2 * 2 ^ (Zdigits2 (Z.pos M) - n - 1)).
      { rewrite Hm2eq.
        replace (Zdigits2 (Z.pos M) - n)
          with (1 + (Zdigits2 (Z.pos M) - n - 1)) at 1 by lia.
        rewrite pow2_split by lia. reflexivity. }
      pose proof (pow2_pos (Zdigits2 (Z.pos M) - n - 1) ltac:(lia)) as Hpp.
      destruct (Z.le_gt_cases
                  (fexp prec emax (Zdigits2 m1 + e1 + 1) - e1) 0) as [Hz|Hz].
      + replace (Z.max 0 (fexp prec emax (Zdigits2 m1 + e1 + 1) - e1)) with 0
          in Hm3, He3 by lia.
        change (2 ^ 0) with 1 in Hm3. rewrite Z.div_1_r in Hm3.
        rewrite Hm3, He3, Z.add_0_r. split; [assumption|lia].
      + replace (Z.max 0 (fexp prec emax (Zdigits2 m1 + e1 + 1) - e1)) with 1
          in Hm3, He3 by lia.
        change (2 ^ 1) with 2 in Hm3.
        assert (Hm3' : shr_m mrs3 = 2 ^ (Zdigits2 (Z.pos M) - n - 1)).
        { rewrite Hm3, Hhalf, Z.mul_comm. apply Z.div_mul. lia. }
        rewrite He3. split; [|lia].
        apply above_halve. rewrite Hm3', <- Hhalf. assumption. }
  destruct Hfinal as (Hab & Hpos).
  destruct (shr_m mrs3) as [|m3|m3]; try lia.
  destruct (e3 <=? emax - prec); [split; [reflexivity|assumption]|reflexivity].
Qed.

(** *** Conversions and the product *)

Lemma iter_xO (d m : positive) :
  Z.pos (Pos.iter xO m d) = Z.pos m * 2 ^ Z.pos d.
Proof.
  induction d as [|d IH] using Pos.peano_ind.
  - cbn. lia.
  - rewrite Pos.iter_succ, Pos2Z.inj_xO, IH, Pos2Z.inj_succ,
      Z.pow_succ_r by lia.
    ring.
Qed.

Lemma shl_align_above (m : positive) (e e' x : Z) :
  above (Z.pos m) e x ->
  above (Z.pos (fst (shl_align m e e'))) (snd (shl_align m e e')) x.
Proof.
  intros Habove. unfold shl_align.
  destruct (e' - e) as [|d|d] eqn:Hd; cbn [fst snd]; try assumption.
  rewrite iter_xO.
  set (k := Z.max 0 (- e')).
  apply (above_scaled _ _ _ (k + Z.pos d)); [unfold k; lia..|].
  apply (above_scaled _ _ _ (k + Z.pos d)) in Habove; [|unfold k; lia..].
  replace (e + (k + Z.pos d)) with (Z.pos d + (e' + (k + Z.pos d)))
    in Habove by lia.
  rewrite (pow2_split (Z.pos d)) in Habove by (unfold k; lia).
  lia.
Qed.

(** [float64(x)] of a positive integer of at most 53 bits is not below
    [x]. *)
Lemma of_int_above (x : Z) :
  1 <= x <= 2 ^ 53 ->
  match of_int x with
  | S754_finite s m e => s = false /\ above (Z.pos m) e x
  | S754_infinity s => s = false
  | _ => False
  end.
Proof.
  intros Hx. unfold of_int, binary_normalize.
  destruct x as [|p|p]; try lia.
  unfold binary_round.
  pose proof (shl_align_above p 0
                (fexp prec emax (Z.pos (digits2_pos p) + 0)) (Z.pos p)) as H.
  destruct (shl_align p 0 _) as [mz ez]. cbn [fst snd] in H.
  apply round_above; [assumption|].
  apply H. unfold above. cbn. lia.
Qed.

(** A well-formed float that compares at least [1.0] is plus infinity
    or a finite value not below the integer 1. *)
Lemma ge_one_above (f : float64) :
  valid f -> leb one f = true ->
  match f with
  | S754_finite s m e => s = false /\ above (Z.pos m) e 1
  | S754_infinity s => s = false
  | _ => False
  end.
Proof.
  unfold valid, leb, SFleb. intros Hvalid Hle.
  change one with (S754_finite false 4503599627370496 (-52)) in Hle.
  destruct f as [s|s| |s m e]; cbn [SFcompare] in Hle; try discriminate.
  - now destruct s.
  - destruct s; [discriminate|]. split; [reflexivity|].
    cbn [valid_binary] in Hvalid. unfold bounded, canonical_mantissa in Hvalid.
    apply andb_true_iff in Hvalid. destruct Hvalid as (Hcanon & _).
    apply Z.eqb_eq in Hcanon. rewrite fexp_eq in Hcanon.
    pose proof (digits2_pos_bounds m) as Hd.
    fold (Pos.compare 4503599627370496 m) in Hle.
    unfold above.
    destruct (Z.compare_spec (-52) e) as [He|He|He]; try discriminate.
    + subst e.
      destruct (Pos.compare_spec 4503599627370496 m) as [Hm|Hm|Hm];
        try discriminate; cbn; lia.
    + assert (Hdigits : Z.pos (digits2_pos m) = 53) by lia.
      rewrite Hdigits in Hd. change (2 ^ (53 - 1)) with (2 ^ 52) in Hd.
      destruct (Z.le_gt_cases 0 e) as [Hpos|Hneg].
      * replace (Z.max 0 (- e)) with 0 by lia.
        replace (Z.max 0 e) with e by lia.
        pose proof (pow2_pos e Hpos). change (2 ^ 0) with 1. nia.
      * replace (Z.max 0 (- e)) with (- e) by lia.
        replace (Z.max 0 e) with 0 by lia.
        assert (2 ^ (- e) <= 2 ^ 52) by (apply Z.pow_le_mono_r; lia).
        change (2 ^ 0) with 1. lia.
Qed.

(** The product of a float not below [x] and a float not below 1 is
    not below [x], for every integer [x] of at most 53 bits. *)
Lemma mul_above (a b : float64) (x : Z) :
  1 <= x <= 2 ^ 53 ->
  match a with
  | S754_finite s m e => s = false /\ above (Z.pos m) e x
  | S754_infinity s => s = false
  | _ => False
  end ->
  match b with
  | S754_finite s m e => s = false /\ above (Z.pos m) e 1
  | S754_infinity s => s = false
  | _ => False
  end ->
  match mul a b with
  | S754_finite s m e => s = false /\ above (Z.pos m) e x
  | S754_infinity s => s = false
  | _ => False
  end.
Proof.
  intros Hx Ha Hb. unfold mul.
  destruct a as [sa|sa| |sa ma ea]; try contradiction;
    destruct b as [sb|sb| |sb mb eb]; try contradiction;
    cbn [SFmul].
  - now subst.
  - destruct Hb as [-> _]. now subst.
  - destruct Ha as [-> _]. now subst.
  - destruct Ha as [-> Ha], Hb as [-> Hb]. cbn [xorb].
    apply round_above; [assumption|].
    rewrite Pos2Z.inj_mul. apply above_mul; [lia|assumption..].
Qed.

Lemma truncate_positive (m : positive) (e : Z) :
  truncate false m e
  = if e <? 0 then Z.pos m / 2 ^ (- e) else Z.pos m * 2 ^ e.
Proof. reflexivity. Qed.

(** Converting back to [int] truncates, which cannot pass below an
    integer. *)
Lemma int_value_above (m : positive) (e x t : Z) :
  above (Z.pos m) e x ->
  int_value (S754_finite false m e) = Some t ->
  x <= t.
Proof.
  unfold above. intros Habove Hval.
  change (int_value (S754_finite false m e))
    with (if fits (truncate false m e)
          then Some (truncate false m e) else None) in Hval.
  rewrite truncate_positive in Hval.
  destruct (fits _); [|discriminate].
  assert (Ht : t = if e <? 0 then Z.pos m / 2 ^ (- e) else Z.pos m * 2 ^ e)
    by congruence.
  rewrite Ht. clear Hval Ht.
  destruct (Z.ltb_spec e 0) as [He|He].
  - replace (Z.max 0 (- e)) with (- e) in Habove by lia.
    replace (Z.max 0 e) with 0 in Habove by lia.
    change (2 ^ 0) with 1 in Habove.
    apply Z.div_le_lower_bound; [apply pow2_pos|]; lia.
  - replace (Z.max 0 (- e)) with 0 in Habove by lia.
    replace (Z.max 0 e) with e in Habove by lia.
    change (2 ^ 0) with 1 in Habove. lia.
Qed.

(** Scaling a delay of at most 53 bits by a factor of at least one does
    not shrink it, as long as the product converts back to [int]. *)
Lemma scaling_grows (unrepresentable : float64 -> Z) (x : Z) (f : float64) :
  valid f -> leb one f = true ->
  0 <= x <= 2 ^ 53 ->
  int_value (mul (of_int x) f) <> None ->
  x <= to_int unrepresentable (mul (of_int x) f).
Proof.
  intros Hvalid Hone Hx Hfits. unfold to_int.
  destruct (int_value (mul (of_int x) f)) as [t|] eqn:Hval; [|congruence].
  clear Hfits.
  pose proof (ge_one_above f Hvalid Hone) as Hf.
  destruct (Z.eq_dec x 0) as [->|Hnz].
  - change (of_int 0) with (S754_zero false) in Hval.
    destruct f as [s|s| |s m e]; try contradiction; cbn in Hval;
      try discriminate.
    injection Hval as <-. lia.
  - pose proof (of_int_above x ltac:(lia)) as Ha.
    pose proof (mul_above (of_int x) f x ltac:(lia) Ha Hf) as Hp.
    destruct (mul (of_int x) f) as [s|s| |s m e]; try contradiction.
    + discriminate.
    + destruct Hp as [-> Hp]. eapply int_value_above; eassumption.
Qed.

(** ** The monitor loop *)

Lemma sleeps_app (a b : list event) :
  sleeps (a ++ b) = (sleeps a ++ sleeps b)%list.
Proof. apply flat_map_app. Qed.

Lemma sleeps_executeELF (elfPath : string) (r : exec_result) :
  sleeps (executeELF elfPath r) = [].
Proof.
  unfold executeELF.
  destruct (CombinedOutput r) as [output [err|]]; reflexivity.
Qed.

Section MonitorFacts.

Variable unrepresentable : float64 -> Z.
Variable f : flags.

Let react := react unrepresentable f.
Let cycle := cycle unrepresentable f.
Let scaled := scaled unrepresentable f.

(** A cycle that sees the site up. *)
Lemma react_up (st : backoff) (r : exec_result) :
  react st false r
  = (initial_state f,
     (if verboseFlag f then [ELog (LogUp (urlFlag f))] else [])
       ++ [ESleep (seconds (intervalFlag f))]).
Proof. reflexivity. Qed.

(** A cycle that sees the site down while the incremented counter is at
    most one: the delay is kept and the pause is the check interval. *)
Lemma react_down_base (st : backoff) (r : exec_result) :
  wrap (consecutiveFailures st + 1) <= 1 ->
  react st true r
  = ({| consecutiveFailures := wrap (consecutiveFailures st + 1);
        currentBackoff := currentBackoff st |},
     (ELog (LogDown (urlFlag f)) :: executeELF (elfPathFlag f) r)
       ++ [ESleep (seconds (intervalFlag f))]).
Proof.
  intros Hle. unfold react, Backoff.react.
  destruct (Z.gtb_spec (wrap (consecutiveFailures st + 1)) 1); [lia|].
  reflexivity.
Qed.

(** A cycle that sees the site down with the incremented counter above
    one: the delay is scaled and capped, and it is the pause. *)
Lemma react_down_backoff (st : backoff) (r : exec_result) :
  1 < wrap (consecutiveFailures st + 1) ->
  let current := Z.min (scaled (currentBackoff st)) (maxBackoffFlag f) in
  react st true r
  = ({| consecutiveFailures := wrap (consecutiveFailures st + 1);
        currentBackoff := current |},
     (ELog (LogDown (urlFlag f)) :: executeELF (elfPathFlag f) r)
       ++ [ELog (LogBackoff (wrap (consecutiveFailures st + 1)) current);
           ESleep (seconds current)]).
Proof.
  intros Hgt current. unfold react, Backoff.react.
  destruct (Z.gtb_spec (wrap (consecutiveFailures st + 1)) 1); [|lia].
  assert (Hcap : (if Backoff.scaled unrepresentable f (currentBackoff st)
                       >? maxBackoffFlag f
                  then maxBackoffFlag f
                  else Backoff.scaled unrepresentable f (currentBackoff st))
                 = current).
  { unfold current, scaled.
    destruct (Z.gtb_spec (Backoff.scaled unrepresentable f (currentBackoff st))
                (maxBackoffFlag f)); lia. }
  now rewrite Hcap.
Qed.

(** The fate of the launched binary touches neither the state nor the
    pause. *)
Lemma react_ignores_exec (st : backoff) (siteDown : bool)
    (r1 r2 : exec_result) :
  fst (react st siteDown r1) = fst (react st siteDown r2)
  /\ sleeps (snd (react st siteDown r1)) = sleeps (snd (react st siteDown r2)).
Proof.
  destruct siteDown; [|now rewrite !react_up].
  destruct (Z.le_gt_cases (wrap (consecutiveFailures st + 1)) 1) as [Hle|Hgt].
  - rewrite !react_down_base by assumption. cbn [fst snd]. split; [reflexivity|].
    change (?e :: ?a) with ([e] ++ a)%list.
    now rewrite !sleeps_app, !sleeps_executeELF.
  - rewrite !react_down_backoff by assumption. cbn [fst snd].
    split; [reflexivity|].
    change (?e :: ?a) with ([e] ++ a)%list.
    now rewrite !sleeps_app, !sleeps_executeELF.
Qed.

(** Every cycle pauses exactly once after its probe. *)
Lemma react_sleeps_once (st : backoff) (siteDown : bool) (r : exec_result) :
  exists d, sleeps (snd (react st siteDown r)) = [d].
Proof.
  destruct siteDown.
  - destruct (Z.le_gt_cases (wrap (consecutiveFailures st + 1)) 1) as [Hle|Hgt].
    + rewrite react_down_base by assumption. cbn [snd].
      change (?e :: ?a) with ([e] ++ a)%list.
      rewrite !sleeps_app, sleeps_executeELF. eexists; reflexivity.
    + rewrite react_down_backoff by assumption. cbn [snd].
      change (?e :: ?a) with ([e] ++ a)%list.
      rewrite !sleeps_app, sleeps_executeELF. eexists; reflexivity.
  - rewrite react_up. cbn [snd]. rewrite sleeps_app.
    destruct (verboseFlag f); eexists; reflexivity.
Qed.

(** A cycle is its probe followed by the reaction to its outcome. *)
Lemma cycle_react (env : cycle_env) (st : backoff) :
  cycle env st
  = (fst (react st (fst (outcome f env)) (snd (outcome f env))),
     snd (checkWebsiteDown (urlFlag f) (net env) (retriesFlag f)
            (verboseFlag f))
       ++ snd (react st (fst (outcome f env)) (snd (outcome f env)))).
Proof.
  unfold cycle, Backoff.cycle, outcome, react. cbn [fst snd].
  destruct (checkWebsiteDown _ _ _ _) as [siteDown probing]. cbn [fst snd].
  now destruct (Backoff.react _ _ _ _ _).
Qed.

(** The states of the loop are those of its outcomes. *)
Lemma loop_reacts (world : nat -> cycle_env) (n : nat) :
  forall k st,
    fst (loop unrepresentable f world n k st)
    = fst (reacts unrepresentable f
             (map (fun j => outcome f (world j)) (seq k n)) st).
Proof.
  induction n as [|n IH]; intros k st; [reflexivity|].
  cbn [loop seq map reacts].
  pose proof (cycle_react (world k) st) as Hc. unfold cycle in Hc.
  rewrite Hc. specialize (IH (S k)).
  destruct (outcome f (world k)) as [siteDown r]. cbn [fst snd] in *.
  fold react. destruct (react st siteDown r) as [st' tr]. cbn [fst] in *.
  specialize (IH st').
  destruct (loop unrepresentable f world n (S k) st') as [st2 tr2].
  destruct (reacts unrepresentable f _ st') as [st3 pauses].
  exact IH.
Qed.

Lemma loop_first (world : nat -> cycle_env) (n k : nat) (st : backoff) :
  fst (loop unrepresentable f world (S n) k st)
  = fst (loop unrepresentable f world n (S k) (fst (cycle (world k) st))).
Proof.
  cbn [loop]. unfold cycle.
  destruct (Backoff.cycle unrepresentable f (world k) st) as [st' tr].
  cbn [fst]. now destruct (loop unrepresentable f world n (S k) st').
Qed.

(** One more iteration is one more cycle after the others. *)
Lemma loop_next (world : nat -> cycle_env) (n : nat) :
  forall k st,
    fst (loop unrepresentable f world (S n) k st)
    = fst (cycle (world (k + n)%nat)
             (fst (loop unrepresentable f world n k st))).
Proof.
  induction n as [|n IH]; intros k st.
  - rewrite loop_first. cbn [loop fst]. now rewrite Nat.add_0_r.
  - rewrite loop_first, IH, <- loop_first.
    now replace (S k + n)%nat with (k + S n)%nat by lia.
Qed.

(** Past the flag validation [main] never exits. *)
Lemma main_runs (stat : stat_result) (world : nat -> cycle_env) (n : nat) :
  startup f stat = None ->
  main unrepresentable f stat world n
  = inr (fst (loop unrepresentable f world n 0%nat (initial_state f)),
         (banner f ++ snd (loop unrepresentable f world n 0%nat
                             (initial_state f)))%list).
Proof.
  intros Hok. unfold main. rewrite Hok.
  now destruct (loop unrepresentable f world n 0%nat (initial_state f)).
Qed.

End MonitorFacts.

(** A check of a predicate on every integer of a range. *)
Lemma forallb_range (P : Z -> bool) (lo : Z) (n : nat) :
  forallb P (map (fun k => lo + Z.of_nat k) (seq 0 n)) = true ->
  forall d, lo <= d < lo + Z.of_nat n -> P d = true.
Proof.
  intros Hall d Hd. rewrite forallb_forall in Hall. apply Hall.
  apply in_map_iff. exists (Z.to_nat (d - lo)). split; [lia|].
  apply in_seq. lia.
Qed.

(** In the scenario configuration every product of a delay and the
    factor converts back to [int]. *)
Lemma scenario_products_fit (d : Z) :
  60 <= d <= 300 -> int_value (mul (of_int d) two) <> None.
Proof.
  intros Hd.
  pose proof (forallb_range
                (fun d => match int_value (mul (of_int d) two) with
                          | Some _ => true
                          | None => false
                          end) 60 241 ltac:(vm_compute; reflexivity) d
                ltac:(lia)) as H.
  cbv beta in H. now destruct (int_value (mul (of_int d) two)).
Qed.

(** During an outage of the scenario the counter climbs while the delay
    sits at the cap. *)
Lemma outage_reaches (n : Z) :
  0 <= n -> 4 + n <= int_max ->
  reachable amd64 scenario_flags
    {| consecutiveFailures := 4 + n; currentBackoff := 300 |}.
Proof.
  intros Hn. revert n Hn.
  apply (natlike_ind
           (fun n => 4 + n <= int_max ->
                     reachable amd64 scenario_flags
                       {| consecutiveFailures := 4 + n;
                          currentBackoff := 300 |})).
  - intros _.
    change {| consecutiveFailures := 4 + 0; currentBackoff := 300 |}
      with (fst (cycle amd64 scenario_flags outage
             (fst (cycle amd64 scenario_flags outage
               (fst (cycle amd64 scenario_flags outage
                 (fst (cycle amd64 scenario_flags outage
                   (initial_state scenario_flags)))))))))
      .
    repeat apply reachable_cycle. apply reachable_initial.
  - intros n Hn IH Hmax. unfold int_max in *.
    specialize (IH ltac:(lia)).
    apply (reachable_cycle amd64 scenario_flags outage) in IH.
    rewrite cycle_react in IH. cbn [fst] in IH.
    change (fst (outcome scenario_flags outage)) with true in IH.
    rewrite react_down_backoff in IH.
    + cbn [fst consecutiveFailures currentBackoff] in IH.
      change (scaled amd64 scenario_flags 300) with 600 in IH.
      rewrite wrap_small in IH by (unfold is_int, int_min, int_max; lia).
      replace (4 + Z.succ n) with (4 + n + 1) by lia. exact IH.
    + cbn [consecutiveFailures].
      rewrite wrap_small by (unfold is_int, int_min, int_max; lia). lia.
Qed.

Lemma reacts_app (unrepresentable : float64 -> Z) (f : flags)
    (xs ys : list (bool * exec_result)) :
  forall st,
    reacts unrepresentable f (xs ++ ys) st
    = (fst (reacts unrepresentable f ys
              (fst (reacts unrepresentable f xs st))),
       (snd (reacts unrepresentable f xs st)
        ++ snd (reacts unrepresentable f ys
                  (fst (reacts unrepresentable f xs st))))%list).
Proof.
  induction xs as [|[siteDown r] xs IH]; intros st; cbn [app reacts].
  - cbn [fst snd app]. now destruct (reacts unrepresentable f ys st).
  - destruct (react unrepresentable f st siteDown r) as [st' tr].
    rewrite IH.
    destruct (reacts unrepresentable f xs st') as [st1 p1]. cbn [fst snd].
    destruct (reacts unrepresentable f ys st1) as [st2 p2]. cbn [fst snd].
    now rewrite app_assoc.
Qed.

(** * The claims *)

(** ** C1: growth of the delay *)

(** C1, as stated, fails: with [-initial-backoff 60 -max-backoff 30] and
    factor 2.0 the second consecutive DOWN cycle, entered with counter 1
    and delay 60, leaves the delay at 30, below the previous delay. *)
Lemma capped_delay_shrinks :
  let st := {| consecutiveFailures := 1; currentBackoff := 60 |} in
  let st' := fst (react amd64 tight_cap_flags st true (run outage)) in
  reachable amd64 tight_cap_flags st
  /\ 1 <= consecutiveFailures st
  /\ leb one (backoffFactorFlag tight_cap_flags) = true
  /\ currentBackoff st' = 30
  /\ currentBackoff st' < currentBackoff st.
Proof.
  cbv zeta. split; [|vm_compute; intuition congruence].
  change {| consecutiveFailures := 1; currentBackoff := 60 |}
    with (fst (cycle amd64 tight_cap_flags outage
                 (initial_state tight_cap_flags))).
  apply reachable_cycle, reachable_initial.
Qed.

(** C1, amended: in a DOWN cycle entered with the counter in
    [1, 2^63 - 2] the new delay is the minimum of
    [int(float64(delay) * factor)] and the maximum; it is not below the
    previous delay when the factor is at least one, the previous delay
    lies in [0, maximum] and has at most 53 bits, and the product
    converts back to [int]. *)
Theorem backoff_delay_scaled_and_capped (unrepresentable : float64 -> Z)
    (f : flags) (st : backoff) (r : exec_result) :
  1 <= consecutiveFailures st < int_max ->
  let st' := fst (react unrepresentable f st true r) in
  currentBackoff st'
    = Z.min (scaled unrepresentable f (currentBackoff st)) (maxBackoffFlag f)
  /\ (valid (backoffFactorFlag f) ->
      leb one (backoffFactorFlag f) = true ->
      0 <= currentBackoff st <= maxBackoffFlag f ->
      currentBackoff st <= 2 ^ 53 ->
      int_value (mul (of_int (currentBackoff st)) (backoffFactorFlag f))
        <> None ->
      currentBackoff st <= currentBackoff st').
Proof.
  intros Hcount st'. subst st'.
  rewrite react_down_backoff
    by (rewrite wrap_small; unfold is_int, int_min, int_max in *; lia).
  cbn [fst currentBackoff]. split; [reflexivity|].
  intros Hvalid Hone Hdelay H53 Hfits.
  pose proof (scaling_grows unrepresentable (currentBackoff st)
                (backoffFactorFlag f) Hvalid Hone ltac:(lia) Hfits).
  unfold scaled. lia.
Qed.

(** The second DOWN cycle of scenario C: the delay goes from 60 to 120. *)
Lemma backoff_delay_scaled_and_capped_witness :
  let st := {| consecutiveFailures := 1; currentBackoff := 60 |} in
  let st' := fst (react amd64 scenario_flags st true (run outage)) in
  1 <= consecutiveFailures st < int_max
  /\ valid (backoffFactorFlag scenario_flags)
  /\ leb one (backoffFactorFlag scenario_flags) = true
  /\ 0 <= currentBackoff st <= maxBackoffFlag scenario_flags
  /\ currentBackoff st <= 2 ^ 53
  /\ int_value (mul (of_int (currentBackoff st))
                  (backoffFactorFlag scenario_flags)) <> None
  /\ currentBackoff st'
     = Z.min (scaled amd64 scenario_flags (currentBackoff st))
         (maxBackoffFlag scenario_flags)
  /\ currentBackoff st <= currentBackoff st'.
Proof.
  cbv zeta.
  assert (Hcount : 1 <= 1 < int_max) by (unfold int_max; lia).
  assert (Hvalid : valid two) by reflexivity.
  assert (Hone : leb one two = true) by reflexivity.
  assert (Hdelay : 0 <= 60 <= 300) by lia.
  assert (H53 : 60 <= 2 ^ 53) by lia.
  assert (Hfits : int_value (mul (of_int 60) two) <> None)
    by (vm_compute; discriminate).
  destruct (backoff_delay_scaled_and_capped amd64 scenario_flags
              {| consecutiveFailures := 1; currentBackoff := 60 |}
              (run outage) Hcount) as (Heq & Hgrow).
  exact (conj Hcount (conj Hvalid (conj Hone (conj Hdelay (conj H53
           (conj Hfits (conj Heq (Hgrow Hvalid Hone Hdelay H53 Hfits)))))))).
Defined.

(** ** C2: reset on UP *)

(** C2: a cycle whose probe reports UP leaves the counter at 0 and the
    delay at the initial delay, whatever the state before, and after the
    probe it sleeps once, for the check interval; so does the last cycle
    of every sequence of outcomes that ends with UP (scenario D is the
    sequence of four DOWN and one UP). *)
Theorem up_cycle_resets_backoff (unrepresentable : float64 -> Z) (f : flags)
    (env : cycle_env) (st : backoff) :
  fst (checkWebsiteDown (urlFlag f) (net env) (retriesFlag f) (verboseFlag f))
    = false ->
  fst (cycle unrepresentable f env st)
    = {| consecutiveFailures := 0; currentBackoff := initialBackoffFlag f |}
  /\ sleeps (snd (cycle unrepresentable f env st))
     = (sleeps (snd (checkWebsiteDown (urlFlag f) (net env) (retriesFlag f)
                       (verboseFlag f)))
        ++ [seconds (intervalFlag f)])%list
  /\ (forall outcomes r,
        fst (reacts unrepresentable f (outcomes ++ [(false, r)]) st)
          = {| consecutiveFailures := 0;
               currentBackoff := initialBackoffFlag f |}
        /\ snd (reacts unrepresentable f (outcomes ++ [(false, r)]) st)
           = (snd (reacts unrepresentable f outcomes st)
              ++ [seconds (intervalFlag f)])%list).
Proof.
  intros Hup. rewrite cycle_react. cbn [fst snd].
  unfold outcome. cbn [fst snd]. rewrite Hup, react_up. cbn [fst snd].
  split; [reflexivity|]. split.
  - rewrite !sleeps_app. destruct (verboseFlag f); reflexivity.
  - intros outcomes r. rewrite reacts_app. cbn [fst snd reacts].
    rewrite react_up. cbn [fst snd]. rewrite sleeps_app.
    split; [reflexivity|]. destruct (verboseFlag f); reflexivity.
Qed.

(** Scenario D: an UP cycle after the fourth DOWN cycle of scenario C. *)
Lemma up_cycle_resets_backoff_witness :
  let env := {| net := fun _ => GetResponse 200; run := run outage |} in
  let st := {| consecutiveFailures := 4; currentBackoff := 300 |} in
  fst (checkWebsiteDown (urlFlag scenario_flags) (net env)
         (retriesFlag scenario_flags) (verboseFlag scenario_flags)) = false
  /\ fst (cycle amd64 scenario_flags env st)
     = {| consecutiveFailures := 0; currentBackoff := 60 |}
  /\ sleeps (snd (cycle amd64 scenario_flags env st)) = [60 * Second].
Proof.
  cbv zeta.
  assert (Hup : fst (checkWebsiteDown (urlFlag scenario_flags)
                       (fun _ => GetResponse 200)
                       (retriesFlag scenario_flags)
                       (verboseFlag scenario_flags)) = false)
    by reflexivity.
  destruct (up_cycle_resets_backoff amd64 scenario_flags
              {| net := fun _ => GetResponse 200; run := run outage |}
              {| consecutiveFailures := 4; currentBackoff := 300 |} Hup)
    as (Hstate & Hsleep & _).
  exact (conj Hup (conj Hstate Hsleep)).
Defined.

(** ** C3: one pause per DOWN cycle *)

(** C3, as stated, fails: in the scenario configuration the state with
    counter 2^63 - 1 and delay 300 is reached by an outage that lasts
    that many cycles; the next DOWN cycle wraps the counter to -2^63,
    does not take the backoff branch and sleeps for the check interval,
    60 seconds, not for the delay, 300 seconds. *)
Lemma wrapped_counter_pauses_for_interval :
  let st := {| consecutiveFailures := int_max; currentBackoff := 300 |} in
  let st' := fst (react amd64 scenario_flags st true (run outage)) in
  reachable amd64 scenario_flags st
  /\ 1 <= consecutiveFailures st
  /\ consecutiveFailures st' = int_min
  /\ sleeps (snd (react amd64 scenario_flags st true (run outage)))
     = [seconds (intervalFlag scenario_flags)]
  /\ seconds (intervalFlag scenario_flags) <> seconds (currentBackoff st').
Proof.
  cbv zeta. split.
  - replace int_max with (4 + (int_max - 4)) by lia.
    apply outage_reaches; unfold int_max; lia.
  - vm_compute. intuition congruence.
Qed.

(** C3, amended: after its probe a DOWN cycle sleeps exactly once; when
    the counter goes from 0 to 1 it sleeps for the check interval and
    keeps the delay; when the counter before the cycle is in
    [1, 2^63 - 2] it sleeps for the updated delay, the minimum of the
    scaled delay and the maximum.  With initial 60, factor 2.0, maximum
    300 and interval 60, four consecutive DOWN cycles sleep for 60, 120,
    240 and 300 seconds. *)
Theorem down_cycle_pauses_once (unrepresentable : float64 -> Z) (f : flags)
    (st : backoff) (r : exec_result) :
  let st' := fst (react unrepresentable f st true r) in
  let pauses := sleeps (snd (react unrepresentable f st true r)) in
  (exists d, pauses = [d])
  /\ (consecutiveFailures st = 0 ->
      consecutiveFailures st' = 1
      /\ currentBackoff st' = currentBackoff st
      /\ pauses = [seconds (intervalFlag f)])
  /\ (1 <= consecutiveFailures st < int_max ->
      consecutiveFailures st' = consecutiveFailures st + 1
      /\ currentBackoff st'
         = Z.min (scaled unrepresentable f (currentBackoff st))
             (maxBackoffFlag f)
      /\ pauses = [seconds (currentBackoff st')])
  /\ (forall r1 r2 r3 r4,
        snd (reacts unrepresentable scenario_flags
               [(true, r1); (true, r2); (true, r3); (true, r4)]
               (initial_state scenario_flags))
        = [60 * Second; 120 * Second; 240 * Second; 300 * Second]).
Proof.
  cbv zeta. split; [apply react_sleeps_once|]. split; [|split].
  - intros Hzero. rewrite react_down_base by (rewrite Hzero; cbn; lia).
    cbn [fst snd consecutiveFailures currentBackoff]. rewrite Hzero.
    split; [reflexivity|]. split; [reflexivity|].
    change (?e :: ?a) with ([e] ++ a)%list.
    now rewrite !sleeps_app, sleeps_executeELF.
  - intros Hcount.
    assert (Hwrap : wrap (consecutiveFailures st + 1)
                    = consecutiveFailures st + 1)
      by (apply wrap_small; unfold is_int, int_min, int_max in *; lia).
    rewrite react_down_backoff by lia.
    cbn [fst snd consecutiveFailures currentBackoff].
    split; [assumption|]. split; [reflexivity|].
    change (?e :: ?a) with ([e] ++ a)%list.
    now rewrite !sleeps_app, sleeps_executeELF.
  - intros r1 r2 r3 r4. cbn [reacts].
    pose proof (react_ignores_exec unrepresentable scenario_flags) as Hexec.
    assert (Hstep : forall st0 r0,
              react unrepresentable scenario_flags st0 true r0
              = (fst (react unrepresentable scenario_flags st0 true
                        (run outage)),
                 snd (react unrepresentable scenario_flags st0 true r0)))
      by (intros st0 r0;
          rewrite (surjective_pairing (react _ _ st0 true r0)) at 1;
          now rewrite (proj1 (Hexec st0 true r0 (run outage)))).
    rewrite (Hstep _ r1).
    rewrite (proj2 (Hexec _ true r1 (run outage))).
    change (fst (react unrepresentable scenario_flags
                   (initial_state scenario_flags) true (run outage)))
      with {| consecutiveFailures := 1; currentBackoff := 60 |}.
    rewrite (Hstep _ r2).
    rewrite (proj2 (Hexec _ true r2 (run outage))).
    change (fst (react unrepresentable scenario_flags
                   {| consecutiveFailures := 1; currentBackoff := 60 |}
                   true (run outage)))
      with {| consecutiveFailures := 2; currentBackoff := 120 |}.
    rewrite (Hstep _ r3).
    rewrite (proj2 (Hexec _ true r3 (run outage))).
    change (fst (react unrepresentable scenario_flags
                   {| consecutiveFailures := 2; currentBackoff := 120 |}
                   true (run outage)))
      with {| consecutiveFailures := 3; currentBackoff := 240 |}.
    rewrite (Hstep _ r4).
    rewrite (proj2 (Hexec _ true r4 (run outage))).
    reflexivity.
Qed.

(** The third DOWN cycle of scenario C: a pause of 240 seconds. *)
Lemma down_cycle_pauses_once_witness :
  let st := {| consecutiveFailures := 2; currentBackoff := 120 |} in
  let st' := fst (react amd64 scenario_flags st true (run outage)) in
  1 <= consecutiveFailures st < int_max
  /\ consecutiveFailures st' = 3
  /\ currentBackoff st' = 240
  /\ sleeps (snd (react amd64 scenario_flags st true (run outage)))
     = [240 * Second].
Proof.
  cbv zeta.
  assert (Hcount : 1 <= 2 < int_max) by (unfold int_max; lia).
  destruct (down_cycle_pauses_once amd64 scenario_flags
              {| consecutiveFailures := 2; currentBackoff := 120 |}
              (run outage)) as (_ & _ & Hbackoff & _).
  destruct (Hbackoff Hcount) as (Hc & Hd & Hp).
  exact (conj Hcount (conj Hc (conj Hd Hp))).
Defined.

(** ** C4: the delay stays within its bounds *)

(** C4, as stated, fails: with [-initial-backoff -60], maximum 300 and
    factor 2.0 (so factor >= 1 and initial <= maximum) two DOWN cycles
    reach the delay -120, below the initial delay. *)
Lemma negative_delay_leaves_bounds :
  let st := {| consecutiveFailures := 2; currentBackoff := -120 |} in
  leb one (backoffFactorFlag negative_delay_flags) = true
  /\ initialBackoffFlag negative_delay_flags
     <= maxBackoffFlag negative_delay_flags
  /\ reachable amd64 negative_delay_flags st
  /\ currentBackoff st < initialBackoffFlag negative_delay_flags.
Proof.
  cbv zeta. split; [reflexivity|]. split; [cbn; lia|]. split; [|cbn; lia].
  change {| consecutiveFailures := 2; currentBackoff := -120 |}
    with (fst (cycle amd64 negative_delay_flags outage
            (fst (cycle amd64 negative_delay_flags outage
               (initial_state negative_delay_flags))))).
  repeat apply reachable_cycle. apply reachable_initial.
Qed.

(** C4, amended: for every configuration with a factor of at least one,
    [0 <= initial <= maximum <= 2^53] and in which
    [float64(d) * factor] converts back to [int] for every [d] between
    initial and maximum, the delay lies in [[initial, maximum]] in every
    reachable state of the loop. *)
Theorem delay_within_bounds (unrepresentable : float64 -> Z) (f : flags)
    (st : backoff) :
  valid (backoffFactorFlag f) ->
  leb one (backoffFactorFlag f) = true ->
  0 <= initialBackoffFlag f <= maxBackoffFlag f ->
  maxBackoffFlag f <= 2 ^ 53 ->
  (forall d, initialBackoffFlag f <= d <= maxBackoffFlag f ->
             int_value (mul (of_int d) (backoffFactorFlag f)) <> None) ->
  reachable unrepresentable f st ->
  initialBackoffFlag f <= currentBackoff st <= maxBackoffFlag f.
Proof.
  intros Hvalid Hone Hinit Hmax Hfits Hreach.
  induction Hreach as [|env st Hreach IH]; [cbn; lia|].
  rewrite cycle_react. cbn [fst].
  destruct (fst (outcome f env)).
  - destruct (Z.le_gt_cases (wrap (consecutiveFailures st + 1)) 1) as [Hle|Hgt].
    + now rewrite react_down_base.
    + rewrite react_down_backoff by assumption. cbn [fst currentBackoff].
      pose proof (scaling_grows unrepresentable (currentBackoff st)
                    (backoffFactorFlag f) Hvalid Hone ltac:(lia)
                    (Hfits _ IH)) as Hgrow.
      unfold scaled. lia.
  - rewrite react_up. cbn. lia.
Qed.

(** Scenario C after two DOWN cycles. *)
Lemma delay_within_bounds_witness :
  let st := fst (cycle amd64 scenario_flags outage
              (fst (cycle amd64 scenario_flags outage
                 (initial_state scenario_flags)))) in
  valid (backoffFactorFlag scenario_flags)
  /\ leb one (backoffFactorFlag scenario_flags) = true
  /\ 0 <= initialBackoffFlag scenario_flags <= maxBackoffFlag scenario_flags
  /\ maxBackoffFlag scenario_flags <= 2 ^ 53
  /\ reachable amd64 scenario_flags st
  /\ 60 <= currentBackoff st <= 300.
Proof.
  cbv zeta.
  assert (Hvalid : valid (backoffFactorFlag scenario_flags)) by reflexivity.
  assert (Hone : leb one (backoffFactorFlag scenario_flags) = true)
    by reflexivity.
  assert (Hinit : 0 <= initialBackoffFlag scenario_flags
                  <= maxBackoffFlag scenario_flags) by (cbn; lia).
  assert (Hmax : maxBackoffFlag scenario_flags <= 2 ^ 53) by (cbn; lia).
  assert (Hreach : reachable amd64 scenario_flags
                     (fst (cycle amd64 scenario_flags outage
                        (fst (cycle amd64 scenario_flags outage
                           (initial_state scenario_flags))))))
    by (repeat apply reachable_cycle; apply reachable_initial).
  exact (conj Hvalid (conj Hone (conj Hinit (conj Hmax (conj Hreach
           (delay_within_bounds amd64 scenario_flags _ Hvalid Hone Hinit Hmax
              scenario_products_fit Hreach)))))).
Defined.

(** The other conditions of the amended C1 and C4 are needed as well.
    A delay of more than 53 bits loses its low bit in [float64(delay)]:
    with factor 1.0 the delay 2^53 + 1 becomes 2^53. *)
Example rounding_shrinks_large_delay :
  let st := {| consecutiveFailures := 1; currentBackoff := 2 ^ 53 + 1 |} in
  leb one (backoffFactorFlag large_delay_flags) = true
  /\ 0 <= currentBackoff st <= maxBackoffFlag large_delay_flags
  /\ currentBackoff
       (fst (react amd64 large_delay_flags st true (run outage)))
     = 2 ^ 53.
Proof. vm_compute. intuition congruence. Qed.

(** A product beyond 2^63 does not convert back: with the default
    delays and the factor 2^61 the amd64 conversion yields -2^63, which
    is below the maximum and becomes the delay. *)
Example steep_factor_overflows :
  let st := {| consecutiveFailures := 1; currentBackoff := 60 |} in
  leb one (backoffFactorFlag steep_factor_flags) = true
  /\ int_value (mul (of_int (currentBackoff st))
                  (backoffFactorFlag steep_factor_flags)) = None
  /\ currentBackoff
       (fst (react amd64 steep_factor_flags st true (run outage)))
     = int_min.
Proof. vm_compute. intuition congruence. Qed.

(** ** C5: the classification of the prober *)

(** C5: for a retry budget [retries] (an [int]), [checkWebsiteDown]
    returns UP exactly when one of the first [retries] attempts
    completes without transport error with a status in [200, 400), and
    then the attempt of the first such answer is the last request it
    makes; it returns DOWN exactly when all [retries] attempts fail, and
    then it has made [retries] requests. *)
Theorem prober_classification (url : string) (net : nat -> get_result)
    (retries : Z) (verbose : bool) :
  1 <= retries -> retries <= int_max ->
  let result := checkWebsiteDown url net retries verbose in
  let n := Z.to_nat retries in
  (fst result = false <->
     exists k, (k < n)%nat /\ attempt_ok (net k) = true)
  /\ (fst result = true <->
        forall k, (k < n)%nat -> attempt_ok (net k) = false)
  /\ (forall k,
        (k < n)%nat -> attempt_ok (net k) = true ->
        (forall j, (j < k)%nat -> attempt_ok (net j) = false) ->
        fst result = false /\ List.length (gets (snd result)) = S k)
  /\ ((forall k, (k < n)%nat -> attempt_ok (net k) = false) ->
      fst result = true /\ List.length (gets (snd result)) = n).
Proof.
  intros _ Hint. cbv zeta.
  destruct (checkWebsiteDown_policy url net retries verbose Hint)
    as (Hdown & Hmade).
  rewrite Hdown, Hmade. split; [|split; [|split]].
  - apply (policy_up net (Z.to_nat retries) O).
  - apply (policy_down net (Z.to_nat retries) O).
  - intros k Hk Hok Hbefore.
    now rewrite (policy_first net (Z.to_nat retries) O k Hk Hok Hbefore).
  - intros Hall.
    now rewrite (policy_all_fail net (Z.to_nat retries) O Hall).
Qed.

(** Scenario A: a transport error, a 503 and a 200 within a budget of
    three attempts. *)
Lemma prober_classification_witness :
  let net := fun k => match k with
                      | O => GetError "timeout"
                      | S O => GetResponse 503
                      | _ => GetResponse 200
                      end in
  let result := checkWebsiteDown "http://service.test/health" net 3 true in
  1 <= 3 /\ 3 <= int_max
  /\ fst result = false /\ List.length (gets (snd result)) = 3%nat.
Proof.
  cbv zeta.
  assert (H1 : 1 <= 3) by lia.
  assert (Hint : 3 <= int_max) by (unfold int_max; lia).
  destruct (prober_classification "http://service.test/health"
              (fun k => match k with
                        | O => GetError "timeout"
                        | S O => GetResponse 503
                        | _ => GetResponse 200
                        end) 3 true H1 Hint) as (_ & _ & Hfirst & _).
  refine (conj H1 (conj Hint (Hfirst 2%nat _ _ _))).
  - vm_compute. lia.
  - reflexivity.
  - intros [|[|j]] Hj; [reflexivity|reflexivity|lia].
Defined.

(** ** C6: a budget of no attempts *)

(** C6 does not hold of the code: the retry count is not validated, and
    with a budget of zero or less a cycle of the running monitor makes
    no request at all, classifies the site as DOWN on the final
    [return true] alone and launches the binary. *)
Theorem zero_budget_never_probes (unrepresentable : float64 -> Z) (f : flags)
    (stat : stat_result) (world : nat -> cycle_env) :
  retriesFlag f <= 0 ->
  startup f stat = None ->
  checkWebsiteDown (urlFlag f) (net (world O)) (retriesFlag f) (verboseFlag f)
    = (true, [])
  /\ exists st tr,
       main unrepresentable f stat world 1 = inr (st, tr)
       /\ gets tr = []
       /\ In (EExec (elfPathFlag f)) tr
       /\ consecutiveFailures st = 1.
Proof.
  intros Hbudget Hstart.
  pose proof (checkWebsiteDown_no_budget (urlFlag f) (net (world O))
                (retriesFlag f) (verboseFlag f) Hbudget) as Hprobe.
  split; [assumption|].
  rewrite (main_runs unrepresentable f stat world 1 Hstart).
  eexists; eexists; split; [reflexivity|].
  cbn [loop]. rewrite cycle_react. unfold outcome.
  rewrite Hprobe. cbn [fst snd].
  rewrite react_down_base by (cbn; lia).
  cbn [fst snd app consecutiveFailures initial_state].
  unfold executeELF.
  destruct (CombinedOutput (run (world O))) as [output [err|]];
    (split; [reflexivity|]); (split; [|reflexivity]);
    cbn; intuition.
Qed.

(** [-retries 0] with an executable binary of mode 0755. *)
Lemma zero_budget_never_probes_witness :
  retriesFlag no_budget_flags <= 0
  /\ startup no_budget_flags (StatInfo 493) = None
  /\ checkWebsiteDown (urlFlag no_budget_flags) (net outage)
       (retriesFlag no_budget_flags) (verboseFlag no_budget_flags)
     = (true, []).
Proof.
  assert (Hbudget : retriesFlag no_budget_flags <= 0) by (cbn; lia).
  assert (Hstart : startup no_budget_flags (StatInfo 493) = None)
    by reflexivity.
  exact (conj Hbudget (conj Hstart
           (proj1 (zero_budget_never_probes amd64 no_budget_flags
                     (StatInfo 493) (fun _ => outage) Hbudget Hstart)))).
Defined.

(** ** C7: a binary that exits with a non-zero status *)

(** C7, as stated, fails: for a binary that starts and exits with
    status 1 [CombinedOutput] returns an [*ExitError], [executeELF]
    logs the failure and returns, and the captured output is not
    printed. *)
Lemma failed_exit_output_dropped :
  executeELF "/usr/local/bin/recover" (Exited 1 "partial output")
  = [EExec "/usr/local/bin/recover"; ELog (LogExecFailed (ExitError 1))]
  /\ ~ In (EPrint "partial output")
         (executeELF "/usr/local/bin/recover" (Exited 1 "partial output")).
Proof.
  split; [reflexivity|].
  cbn. intros [H|[H|[]]]; discriminate.
Qed.

(** C7, amended: when the binary starts but exits with a non-zero
    status, [executeELF] logs the exit error and does not print the
    captured output; the new backoff state and the pause of that DOWN
    cycle are those of a run that exits with status 0. *)
Theorem nonzero_exit_logged_as_failure (unrepresentable : float64 -> Z)
    (f : flags) (st : backoff) (status : Z) (output : string) :
  status <> 0 ->
  executeELF (elfPathFlag f) (Exited status output)
    = [EExec (elfPathFlag f); ELog (LogExecFailed (ExitError status))]
  /\ ~ In (EPrint output) (executeELF (elfPathFlag f) (Exited status output))
  /\ fst (react unrepresentable f st true (Exited status output))
     = fst (react unrepresentable f st true (Exited 0 output))
  /\ sleeps (snd (react unrepresentable f st true (Exited status output)))
     = sleeps (snd (react unrepresentable f st true (Exited 0 output))).
Proof.
  intros Hstatus.
  assert (Htrace : executeELF (elfPathFlag f) (Exited status output)
                   = [EExec (elfPathFlag f);
                      ELog (LogExecFailed (ExitError status))]).
  { unfold executeELF, CombinedOutput.
    destruct (Z.eqb_spec status 0); [contradiction|reflexivity]. }
  split; [assumption|]. split.
  - rewrite Htrace. cbn. intros [H|[H|[]]]; discriminate.
  - apply react_ignores_exec.
Qed.

(** Scenario E with exit status 2. *)
Lemma nonzero_exit_logged_as_failure_witness :
  2 <> 0
  /\ executeELF (elfPathFlag scenario_flags) (Exited 2 "disk full")
     = [EExec (elfPathFlag scenario_flags);
        ELog (LogExecFailed (ExitError 2))].
Proof.
  assert (Hstatus : 2 <> 0) by lia.
  exact (conj Hstatus
           (proj1 (nonzero_exit_logged_as_failure amd64 scenario_flags
                     (initial_state scenario_flags) 2 "disk full" Hstatus))).
Defined.

(** ** C8: a binary that cannot be run *)

(** C8: when the binary fails to start or to be waited for,
    [executeELF] only logs the error; the new backoff state and the
    pause of that DOWN cycle are those of a run that succeeds; and once
    the flags are validated [main] has no exit: after every number of
    cycles it is still running, and one more cycle follows. *)
Theorem failed_remediation_only_logged (unrepresentable : float64 -> Z)
    (f : flags) (st : backoff) (err output : string) (failed : exec_result)
    (stat : stat_result) (world : nat -> cycle_env) (n : nat) :
  failed = StartFailed err \/ failed = WaitFailed err output ->
  startup f stat = None ->
  (exists e, executeELF (elfPathFlag f) failed
             = [EExec (elfPathFlag f); ELog (LogExecFailed e)])
  /\ fst (react unrepresentable f st true failed)
     = fst (react unrepresentable f st true (Exited 0 output))
  /\ sleeps (snd (react unrepresentable f st true failed))
     = sleeps (snd (react unrepresentable f st true (Exited 0 output)))
  /\ (exists st' tr, main unrepresentable f stat world n = inr (st', tr))
  /\ fst (loop unrepresentable f world (S n) O (initial_state f))
     = fst (cycle unrepresentable f (world n)
              (fst (loop unrepresentable f world n O (initial_state f)))).
Proof.
  intros Hfailed Hstart. split; [|split; [|split; [|split]]].
  - destruct Hfailed as [-> | ->]; eexists; reflexivity.
  - apply react_ignores_exec.
  - apply react_ignores_exec.
  - rewrite (main_runs unrepresentable f stat world n Hstart).
    eexists; eexists; reflexivity.
  - apply (loop_next unrepresentable f world n O).
Qed.

(** A binary that cannot be started, in the second DOWN cycle of
    scenario C. *)
Lemma failed_remediation_only_logged_witness :
  let failed := StartFailed "exec format error" in
  let st := {| consecutiveFailures := 1; currentBackoff := 60 |} in
  (failed = StartFailed "exec format error"
   \/ failed = WaitFailed "exec format error" "restarted")
  /\ startup scenario_flags (StatInfo 493) = None
  /\ fst (react amd64 scenario_flags st true failed)
     = fst (react amd64 scenario_flags st true (Exited 0 "restarted"))
  /\ sleeps (snd (react amd64 scenario_flags st true failed))
     = sleeps (snd (react amd64 scenario_flags st true (Exited 0 "restarted"))).
Proof.
  cbv zeta.
  assert (Hfailed : StartFailed "exec format error"
                    = StartFailed "exec format error"
                    \/ StartFailed "exec format error"
                       = WaitFailed "exec format error" "restarted")
    by (left; reflexivity).
  assert (Hstart : startup scenario_flags (StatInfo 493) = None)
    by reflexivity.
  destruct (failed_remediation_only_logged amd64 scenario_flags
              {| consecutiveFailures := 1; currentBackoff := 60 |}
              "exec format error" "restarted"
              (StartFailed "exec format error") (StatInfo 493)
              (fun _ => outage) 3 Hfailed Hstart)
    as (_ & Hstate & Hpause & _).
  exact (conj Hfailed (conj Hstart (conj Hstate Hpause))).
Defined.

(** ** C9: the two probers *)

(** C9: [checkWebsiteDown] of [src/main.go] and [checkWebsiteDown] of
    [src/unnamed/part_000] return the same classification, and produce
    the same events, for every url, retry budget, verbosity and sequence
    of answers. *)
Theorem probers_agree (url : string) (net : nat -> get_result)
    (retries : Z) (verbose : bool) :
  Basic.checkWebsiteDown url net retries verbose
  = Backoff.checkWebsiteDown url net retries verbose.
Proof.
  unfold Basic.checkWebsiteDown, Backoff.checkWebsiteDown.
  now rewrite attempts_agree.
Qed.

(** ** C10: verbosity *)

(** C10: two calls of [checkWebsiteDown] that differ in the verbose flag
    only return the same classification, and their traces differ in log
    lines only. *)
Theorem classification_ignores_verbose (url : string)
    (net : nat -> get_result) (retries : Z) (v1 v2 : bool) :
  fst (checkWebsiteDown url net retries v1)
    = fst (checkWebsiteDown url net retries v2)
  /\ silent (snd (checkWebsiteDown url net retries v1))
     = silent (snd (checkWebsiteDown url net retries v2)).
Proof.
  unfold checkWebsiteDown.
  pose proof (attempts_verbose url net retries v1 v2
                (S (Z.to_nat retries)) 0 0) as H.
  destruct (attempts url net retries v1 _ _ _) as [[d1 t1]|],
           (attempts url net retries v2 _ _ _) as [[d2 t2]|];
    try contradiction; [exact H|split; reflexivity].
Qed.

(** * Further properties *)

(** ** Exact float arithmetic on small integers *)

Lemma exactly_scaled (m e x k : Z) :
  0 <= k -> 0 <= e + k ->
  exactly m e x <-> x * 2 ^ k = m * 2 ^ (e + k).
Proof.
  intros Hk Hek. unfold exactly.
  destruct (Z.le_gt_cases 0 e) as [He|He].
  - replace (Z.max 0 (- e)) with 0 by lia.
    replace (Z.max 0 e) with e by lia.
    rewrite pow2_split by lia. change (2 ^ 0) with 1.
    pose proof (pow2_pos k Hk). pose proof (pow2_pos e He). nia.
  - replace (Z.max 0 (- e)) with (- e) by lia.
    replace (Z.max 0 e) with 0 by lia.
    replace k with (- e + (e + k)) at 1 by lia.
    rewrite pow2_split by lia. change (2 ^ 0) with 1.
    pose proof (pow2_pos (- e) ltac:(lia)).
    pose proof (pow2_pos (e + k) Hek). nia.
Qed.

Lemma exactly_above (m e x : Z) : exactly m e x -> above m e x.
Proof. unfold exactly, above. lia. Qed.

Lemma exactly_mul (m1 e1 m2 e2 x y : Z) :
  exactly m1 e1 x -> exactly m2 e2 y ->
  exactly (m1 * m2) (e1 + e2) (x * y).
Proof.
  intros H1 H2.
  set (k1 := Z.max 0 (- e1)). set (k2 := Z.max 0 (- e2)).
  rewrite (exactly_scaled m1 e1 x k1) in H1 by (unfold k1; lia).
  rewrite (exactly_scaled m2 e2 y k2) in H2 by (unfold k2; lia).
  rewrite (exactly_scaled _ _ _ (k1 + k2)) by (unfold k1, k2; lia).
  replace (e1 + e2 + (k1 + k2)) with ((e1 + k1) + (e2 + k2)) by lia.
  rewrite !pow2_split by (unfold k1, k2; lia).
  replace (x * y * (2 ^ k1 * 2 ^ k2)) with (x * 2 ^ k1 * (y * 2 ^ k2)) by ring.
  rewrite H1, H2. ring.
Qed.

(** *** Shifting out zero bits is exact *)

Lemma shr_1_even (mrs : shr_record) (q : Z) :
  0 <= q -> shr_m mrs = 2 * q -> shr_r mrs = false -> shr_s mrs = false ->
  shr_1 mrs = {| shr_m := q; shr_r := false; shr_s := false |}.
Proof.
  destruct mrs as [m r s]; cbn [shr_m shr_r shr_s].
  intros Hq -> -> ->.
  destruct q as [|q|q]; try lia; reflexivity.
Qed.

Lemma iter_shr_1_zero_bits (p : positive) :
  forall mrs q,
    0 <= q -> shr_m mrs = q * 2 ^ Z.pos p ->
    shr_r mrs = false -> shr_s mrs = false ->
    iter_pos shr_1 p mrs = {| shr_m := q; shr_r := false; shr_s := false |}.
Proof.
  induction p as [p IH|p IH|]; intros mrs q Hq Hm Hr Hs; cbn [iter_pos].
  - pose proof (pow2_pos (Z.pos p) ltac:(lia)) as Hp.
    assert (H1 : shr_1 mrs
                 = {| shr_m := q * 2 ^ Z.pos p * 2 ^ Z.pos p;
                      shr_r := false; shr_s := false |}).
    { apply shr_1_even; [nia| |assumption..].
      rewrite Hm. replace (Z.pos p~1) with (1 + Z.pos p + Z.pos p) by lia.
      rewrite !pow2_split by lia. change (2 ^ 1) with 2. ring. }
    rewrite H1.
    assert (H2 : iter_pos shr_1 p
                   {| shr_m := q * 2 ^ Z.pos p * 2 ^ Z.pos p;
                      shr_r := false; shr_s := false |}
                 = {| shr_m := q * 2 ^ Z.pos p;
                      shr_r := false; shr_s := false |})
      by (apply IH; [nia|reflexivity..]).
    rewrite H2. now apply IH.
  - pose proof (pow2_pos (Z.pos p) ltac:(lia)) as Hp.
    assert (H1 : iter_pos shr_1 p mrs
                 = {| shr_m := q * 2 ^ Z.pos p;
                      shr_r := false; shr_s := false |}).
    { apply IH; [nia| |assumption..].
      rewrite Hm. replace (Z.pos p~0) with (Z.pos p + Z.pos p) by lia.
      rewrite !pow2_split by lia. ring. }
    rewrite H1. now apply IH.
  - apply shr_1_even; try assumption. rewrite Hm. change (2 ^ 1) with 2. ring.
Qed.

Lemma shr_zero_bits (m q e n : Z) :
  0 <= q -> 0 <= n -> m = q * 2 ^ n ->
  shr {| shr_m := m; shr_r := false; shr_s := false |} e n
  = ({| shr_m := q; shr_r := false; shr_s := false |}, e + n).
Proof.
  intros Hq Hn Hm. destruct n as [|p|p]; try lia; cbn [shr].
  - change (2 ^ 0) with 1 in Hm. rewrite Z.mul_1_r in Hm. subst m.
    now rewrite Z.add_0_r.
  - now rewrite (iter_shr_1_zero_bits p _ q).
Qed.

Lemma shr_nothing (mrs : shr_record) (e n : Z) :
  n <= 0 -> shr mrs e n = (mrs, e).
Proof. destruct n; try lia; reflexivity. Qed.

(** *** Rounding an integer of at most 53 bits is exact *)

(** The bits that rounding drops from a mantissa whose value is an
    integer of at most 53 bits are all zero. *)
Lemma exact_mantissa_splits (M E x : Z) :
  0 < M -> 1 <= x <= 2 ^ 53 -> exactly M E x ->
  let n := Z.max 0 (fexp prec emax (Zdigits2 M + E) - E) in
  exists q, 0 < q /\ M = q * 2 ^ n /\ exactly q (E + n) x /\ E + n <= 53.
Proof.
  intros HM Hx Hexact. rewrite fexp_eq.
  set (n := Z.max 0 _).
  assert (Hdef : n = Z.max 0 (Z.max (Zdigits2 M + E - 53) (- 1074) - E))
    by reflexivity.
  clearbody n. cbv zeta.
  destruct (Zdigits2_bounds M HM) as (Hd1 & Hd).
  set (d := Zdigits2 M) in *.
  pose proof (pow2_pos (d - 1) ltac:(lia)) as Hpd.
  (* the value has between 1 and 54 digits *)
  assert (Hval : E < 0 -> M = x * 2 ^ (- E)).
  { intros HE. unfold exactly in Hexact.
    replace (Z.max 0 (- E)) with (- E) in Hexact by lia.
    replace (Z.max 0 E) with 0 in Hexact by lia.
    change (2 ^ 0) with 1 in Hexact. lia. }
  assert (Hval' : 0 <= E -> x = M * 2 ^ E).
  { intros HE. unfold exactly in Hexact.
    replace (Z.max 0 (- E)) with 0 in Hexact by lia.
    replace (Z.max 0 E) with E in Hexact by lia.
    change (2 ^ 0) with 1 in Hexact. lia. }
  assert (Hdigits : d + E <= 54).
  { destruct (Z.le_gt_cases 0 E) as [HE|HE].
    - specialize (Hval' HE). pose proof (pow2_pos E HE).
      assert (2 ^ (d - 1 + E) <= 2 ^ 53)
        by (rewrite pow2_split by lia; nia).
      apply Z.pow_le_mono_r_iff in H0; lia.
    - specialize (Hval HE). pose proof (pow2_pos (- E) ltac:(lia)).
      assert (2 ^ (d - 1) <= 2 ^ (53 - E)).
      { replace (53 - E) with (53 + - E) by lia.
        rewrite pow2_split by lia. nia. }
      apply Z.pow_le_mono_r_iff in H0; lia. }
  destruct (Z.eq_dec n 0) as [Hn0|Hn0].
  { exists M. rewrite Hn0, Z.add_0_r. change (2 ^ 0) with 1.
    repeat split; try lia; assumption. }
  assert (Hn : 0 < n) by lia.
  destruct (Z.le_gt_cases 0 E) as [HE|HE].
  - (* no fractional bits: only 2^53 itself has a bit to drop *)
    specialize (Hval' HE). pose proof (pow2_pos E HE).
    assert (d = 54 /\ E = 0 /\ n = 1) as (Hd54 & HE0 & Hn1) by lia.
    subst E. change (2 ^ 0) with 1 in Hval'. rewrite Z.mul_1_r in Hval'.
    rewrite Hd54 in Hd. change (2 ^ (54 - 1)) with (2 ^ 53) in Hd.
    exists (2 ^ 52). rewrite Hn1.
    split; [cbn; lia|]. split; [cbn in *; lia|]. split; [|lia].
    unfold exactly. cbn in *. lia.
  - specialize (Hval HE).
    destruct (Z.le_gt_cases n (- E)) as [Hsmall|Hlarge].
    + exists (x * 2 ^ (- E - n)).
      pose proof (pow2_pos (- E - n) ltac:(lia)).
      split; [nia|]. split.
      * rewrite Hval. replace (- E) with (- E - n + n) at 1 by lia.
        rewrite pow2_split by lia. ring.
      * split; [|lia].
        apply (exactly_scaled _ _ _ (- E - n)); [lia..|].
        replace (E + n + (- E - n)) with 0 by lia. change (2 ^ 0) with 1.
        ring.
    + assert (Hd54 : d + E = 54 /\ n = d - 53) by lia.
      destruct Hd54 as (Hd54 & Hnd).
      assert (Hx53 : x = 2 ^ 53).
      { pose proof (pow2_pos (- E) ltac:(lia)).
        replace (d - 1) with (53 + - E) in Hd by lia.
        rewrite pow2_split in Hd by lia. nia. }
      exists (2 ^ 52). split; [cbn; lia|]. split.
      * rewrite Hval, Hx53, <- !pow2_split by lia. f_equal. lia.
      * split; [|lia].
        apply (exactly_scaled _ _ _ 0); [lia..|].
        rewrite Hx53. replace (E + n + 0) with 1 by lia. reflexivity.
Qed.

Lemma round_exact (sx : bool) (M : positive) (E x : Z) :
  1 <= x <= 2 ^ 53 ->
  exactly (Z.pos M) E x ->
  exists m e,
    binary_round_aux prec emax sx (Z.pos M) E loc_Exact = S754_finite sx m e
    /\ exactly (Z.pos m) e x.
Proof.
  intros Hx Hexact.
  destruct (exact_mantissa_splits (Z.pos M) E x ltac:(lia) Hx Hexact)
    as (q & Hq & HM & Hqx & He).
  destruct (Zdigits2_bounds (Z.pos M) ltac:(lia)) as (Hd1 & Hd).
  set (n := Z.max 0 (fexp prec emax (Zdigits2 (Z.pos M) + E) - E)) in *.
  pose proof (pow2_pos n ltac:(unfold n; lia)) as Hpn.
  assert (Hn : 0 <= n < Zdigits2 (Z.pos M)).
  { split; [unfold n; lia|].
    destruct (Z.lt_ge_cases n (Zdigits2 (Z.pos M))) as [|Hge]; [assumption|].
    assert (2 ^ Zdigits2 (Z.pos M) <= 2 ^ n) by (apply Z.pow_le_mono_r; lia).
    nia. }
  (* the first shift drops [n] zero bits *)
  assert (Hfirst : shr_fexp prec emax (Z.pos M) E loc_Exact
                   = ({| shr_m := q; shr_r := false; shr_s := false |},
                      E + n)).
  { unfold shr_fexp. cbn [shr_record_of_loc].
    destruct (Z.le_gt_cases
                (fexp prec emax (Zdigits2 (Z.pos M) + E) - E) 0) as [Hle|Hgt].
    - rewrite shr_nothing by assumption.
      replace n with 0 in * by (unfold n; lia).
      change (2 ^ 0) with 1 in HM. rewrite Z.mul_1_r in HM.
      now rewrite HM, Z.add_0_r.
    - replace (fexp prec emax (Zdigits2 (Z.pos M) + E) - E) with n
        by (unfold n; lia).
      apply shr_zero_bits; lia. }
  (* the second shift has nothing to drop *)
  assert (Hdq : Zdigits2 q = Zdigits2 (Z.pos M) - n).
  { apply Zdigits2_unique; [assumption|].
    assert (Hlo : 2 ^ (Zdigits2 (Z.pos M) - n - 1) * 2 ^ n <= Z.pos M).
    { rewrite <- pow2_split by lia.
      replace (Zdigits2 (Z.pos M) - n - 1 + n)
        with (Zdigits2 (Z.pos M) - 1) by lia. lia. }
    assert (Hhi : Z.pos M < 2 ^ (Zdigits2 (Z.pos M) - n) * 2 ^ n).
    { rewrite <- pow2_split by lia.
      replace (Zdigits2 (Z.pos M) - n + n) with (Zdigits2 (Z.pos M)) by lia.
      lia. }
    pose proof (pow2_pos (Zdigits2 (Z.pos M) - n - 1) ltac:(lia)).
    pose proof (pow2_pos (Zdigits2 (Z.pos M) - n) ltac:(lia)).
    nia. }
  assert (Hsecond : shr_fexp prec emax q (E + n) loc_Exact
                    = ({| shr_m := q; shr_r := false; shr_s := false |},
                       E + n)).
  { unfold shr_fexp. cbn [shr_record_of_loc].
    apply shr_nothing. rewrite Hdq.
    replace (Zdigits2 (Z.pos M) - n + (E + n))
      with (Zdigits2 (Z.pos M) + E) by lia.
    unfold n. lia. }
  unfold binary_round_aux. rewrite Hfirst.
  cbn [shr_m loc_of_shr_record round_nearest_even].
  rewrite Hsecond. cbn [shr_m].
  destruct q as [|m|m]; try lia.
  destruct (Z.leb_spec (E + n) (emax - prec)) as [_|Hbig];
    [|unfold emax, prec in Hbig; lia].
  exists m, (E + n). now split.
Qed.

Lemma shl_align_exactly (m : positive) (e e' x : Z) :
  exactly (Z.pos m) e x ->
  exactly (Z.pos (fst (shl_align m e e'))) (snd (shl_align m e e')) x.
Proof.
  intros Hexact. unfold shl_align.
  destruct (e' - e) as [|d|d] eqn:Hd; cbn [fst snd]; try assumption.
  rewrite iter_xO.
  set (k := Z.max 0 (- e')).
  apply (exactly_scaled _ _ _ (k + Z.pos d)); [unfold k; lia..|].
  apply (exactly_scaled _ _ _ (k + Z.pos d)) in Hexact; [|unfold k; lia..].
  replace (e + (k + Z.pos d)) with (Z.pos d + (e' + (k + Z.pos d)))
    in Hexact by lia.
  rewrite (pow2_split (Z.pos d)) in Hexact by (unfold k; lia).
  lia.
Qed.

(** [float64(x)] is [x] for a positive integer of at most 53 bits. *)
Lemma of_int_exact (x : Z) :
  1 <= x <= 2 ^ 53 ->
  exists m e, of_int x = S754_finite false m e /\ exactly (Z.pos m) e x.
Proof.
  intros Hx. unfold of_int, binary_normalize.
  destruct x as [|p|p]; try lia.
  unfold binary_round.
  pose proof (shl_align_exactly p 0
                (fexp prec emax (Z.pos (digits2_pos p) + 0)) (Z.pos p)) as H.
  destruct (shl_align p 0 _) as [mz ez]. cbn [fst snd] in H.
  apply round_exact; [assumption|].
  apply H. unfold exactly. cbn. lia.
Qed.

(** A float that is an integer converts back to that integer. *)
Lemma int_value_exact (m : positive) (e x : Z) :
  exactly (Z.pos m) e x -> is_int x ->
  int_value (S754_finite false m e) = Some x.
Proof.
  unfold exactly. intros Hexact Hint.
  change (int_value (S754_finite false m e))
    with (if fits (truncate false m e)
          then Some (truncate false m e) else None).
  rewrite truncate_positive.
  assert (Ht : (if e <? 0 then Z.pos m / 2 ^ (- e) else Z.pos m * 2 ^ e) = x).
  { destruct (Z.ltb_spec e 0) as [He|He].
    - replace (Z.max 0 (- e)) with (- e) in Hexact by lia.
      replace (Z.max 0 e) with 0 in Hexact by lia.
      change (2 ^ 0) with 1 in Hexact. rewrite Z.mul_1_r in Hexact.
      rewrite <- Hexact. apply Z.div_mul.
      pose proof (pow2_pos (- e) ltac:(lia)). lia.
    - replace (Z.max 0 (- e)) with 0 in Hexact by lia.
      replace (Z.max 0 e) with e in Hexact by lia.
      change (2 ^ 0) with 1 in Hexact. lia. }
  rewrite Ht. apply fits_is_int in Hint. now rewrite Hint.
Qed.

(** The product of a delay and an integer factor is computed without
    any rounding as long as it has at most 53 bits. *)
Lemma integer_product_exact (unrepresentable : float64 -> Z) (d g : Z) :
  0 <= d -> 1 <= g <= 2 ^ 53 -> d * g <= 2 ^ 53 ->
  to_int unrepresentable (mul (of_int d) (of_int g)) = d * g.
Proof.
  intros Hd Hg Hdg. unfold to_int.
  destruct (of_int_exact g Hg) as (mg & eg & Hfg & Hxg).
  destruct (Z.eq_dec d 0) as [->|Hnz].
  - rewrite Hfg. reflexivity.
  - destruct (of_int_exact d ltac:(nia)) as (md & ed & Hfd & Hxd).
    rewrite Hfd, Hfg. unfold mul. cbn [SFmul xorb].
    destruct (round_exact false (md * mg) (ed + eg) (d * g) ltac:(nia))
      as (m & e & Hround & Hexact).
    { rewrite Pos2Z.inj_mul. now apply exactly_mul. }
    rewrite Hround, (int_value_exact m e (d * g) Hexact); [reflexivity|].
    unfold is_int, int_min, int_max. lia.
Qed.

(** ** The backoff schedule *)

Lemma history_next (f : flags) (world : nat -> cycle_env) (n : nat) :
  history f world (S n) = fst (outcome f (world n)) :: history f world n.
Proof.
  unfold history. rewrite seq_S, map_app, rev_app_distr. reflexivity.
Qed.

Lemma history_length (f : flags) (world : nat -> cycle_env) (n : nat) :
  List.length (history f world n) = n.
Proof. unfold history. now rewrite length_rev, length_map, length_seq. Qed.

Lemma leading_downs_length (l : list bool) :
  (leading_downs l <= List.length l)%nat.
Proof.
  induction l as [|[] l IH]; cbn [leading_downs List.length]; lia.
Qed.

(** X1: with a factor that is an integer [g], the scaled delay is
    exactly [d * g] as long as this has at most 53 bits: nothing is
    rounded and nothing depends on the platform. *)
Theorem scaled_by_integer_factor (unrepresentable : float64 -> Z) (f : flags)
    (d g : Z) :
  backoffFactorFlag f = of_int g ->
  0 <= d -> 1 <= g <= 2 ^ 53 -> d * g <= 2 ^ 53 ->
  scaled unrepresentable f d = d * g.
Proof.
  intros Hfactor Hd Hg Hdg. unfold scaled. rewrite Hfactor.
  now apply integer_product_exact.
Qed.

(** The default factor 2.0 doubles 3600 seconds into 7200. *)
Lemma scaled_by_integer_factor_witness :
  backoffFactorFlag scenario_flags = of_int 2
  /\ 0 <= 3600 /\ 1 <= 2 <= 2 ^ 53 /\ 3600 * 2 <= 2 ^ 53
  /\ scaled amd64 scenario_flags 3600 = 7200.
Proof.
  assert (Hfactor : backoffFactorFlag scenario_flags = of_int 2)
    by reflexivity.
  assert (Hd : 0 <= 3600) by lia.
  assert (Hg : 1 <= 2 <= 2 ^ 53) by lia.
  assert (Hdg : 3600 * 2 <= 2 ^ 53) by lia.
  exact (conj Hfactor (conj Hd (conj Hg (conj Hdg
           (scaled_by_integer_factor amd64 scenario_flags 3600 2
              Hfactor Hd Hg Hdg))))).
Defined.

(** X2: as long as fewer than 2^63 cycles have run, the counter is the
    number of DOWN cycles since the last UP cycle (or since the
    start). *)
Theorem counter_counts_consecutive_downs (unrepresentable : float64 -> Z)
    (f : flags) (world : nat -> cycle_env) (n : nat) :
  Z.of_nat n < 2 ^ 63 ->
  consecutiveFailures
    (fst (loop unrepresentable f world n O (initial_state f)))
  = Z.of_nat (leading_downs (history f world n)).
Proof.
  induction n as [|n IH]; intros Hn; [reflexivity|].
  specialize (IH ltac:(lia)).
  rewrite loop_next, Nat.add_0_l, cycle_react, history_next. cbn [fst].
  pose proof (leading_downs_length (history f world n)) as Hlen.
  rewrite history_length in Hlen.
  destruct (fst (outcome f (world n))); cbn [leading_downs];
    [|now rewrite react_up].
  assert (Hwrap : wrap (consecutiveFailures
                          (fst (loop unrepresentable f world n O
                                  (initial_state f))) + 1)
                  = Z.of_nat (S (leading_downs (history f world n)))).
  { rewrite IH, wrap_small; [lia|].
    unfold is_int, int_min, int_max. lia. }
  destruct (Z.le_gt_cases
              (wrap (consecutiveFailures
                       (fst (loop unrepresentable f world n O
                               (initial_state f))) + 1)) 1) as [Hle|Hgt].
  - rewrite react_down_base by assumption. cbn [fst consecutiveFailures].
    exact Hwrap.
  - rewrite react_down_backoff by assumption. cbn [fst consecutiveFailures].
    exact Hwrap.
Qed.

(** Scenario C followed by an UP and a DOWN cycle: the counter is 1. *)
Lemma counter_counts_consecutive_downs_witness :
  let world := fun k => match k with
                        | 4%nat => {| net := fun _ => GetResponse 200;
                                      run := run outage |}
                        | _ => outage
                        end in
  Z.of_nat 6 < 2 ^ 63
  /\ consecutiveFailures
       (fst (loop amd64 scenario_flags world 6 O
               (initial_state scenario_flags))) = 1.
Proof.
  cbv zeta.
  assert (Hn : Z.of_nat 6 < 2 ^ 63) by (cbn; lia).
  exact (conj Hn
           (counter_counts_consecutive_downs amd64 scenario_flags
              (fun k => match k with
                        | 4%nat => {| net := fun _ => GetResponse 200;
                                      run := run outage |}
                        | _ => outage
                        end) 6 Hn)).
Defined.

Lemma min_scaled (a m g : Z) :
  0 <= m -> 1 <= g -> Z.min (Z.min a m * g) m = Z.min (a * g) m.
Proof. intros Hm Hg. nia. Qed.

(** X3: the whole schedule for an integral factor [g].  With
    [0 <= initial <= maximum] and [maximum * g] of at most 53 bits,
    after fewer than 2^63 cycles the state is determined by the number
    [k] of DOWN cycles since the last UP: the counter is [k] and the
    delay is [min (initial * g ^ (k - 1), maximum)] ([initial] for
    [k <= 1]). *)
Theorem backoff_schedule (unrepresentable : float64 -> Z) (f : flags)
    (g : Z) (world : nat -> cycle_env) (n : nat) :
  backoffFactorFlag f = of_int g ->
  1 <= g <= 2 ^ 53 ->
  0 <= initialBackoffFlag f <= maxBackoffFlag f ->
  maxBackoffFlag f * g <= 2 ^ 53 ->
  Z.of_nat n < 2 ^ 63 ->
  let k := Z.of_nat (leading_downs (history f world n)) in
  fst (loop unrepresentable f world n O (initial_state f))
  = {| consecutiveFailures := k;
       currentBackoff :=
         Z.min (initialBackoffFlag f * g ^ Z.max 0 (k - 1))
           (maxBackoffFlag f) |}.
Proof.
  intros Hfactor Hg Hinit Hmax. cbv zeta.
  induction n as [|n IH]; intros Hn.
  - cbn [loop fst history seq map rev leading_downs]. unfold initial_state.
    f_equal. change (Z.max 0 (Z.of_nat 0 - 1)) with 0. rewrite Z.pow_0_r. lia.
  - specialize (IH ltac:(lia)).
    rewrite loop_next, Nat.add_0_l, cycle_react, history_next, IH.
    cbn [fst].
    pose proof (leading_downs_length (history f world n)) as Hlen.
    rewrite history_length in Hlen.
    set (k := Z.of_nat (leading_downs (history f world n))) in *.
    destruct (fst (outcome f (world n))); cbn [leading_downs].
    + rewrite Nat2Z.inj_succ. fold k.
      assert (Hwrap : wrap (k + 1) = Z.succ k)
        by (rewrite wrap_small; unfold is_int, int_min, int_max; lia).
      destruct (Z.eq_dec k 0) as [Hk0|Hk0].
      * rewrite react_down_base
          by (cbn [consecutiveFailures]; rewrite Hwrap; lia).
        cbn [fst consecutiveFailures currentBackoff]. rewrite Hwrap, Hk0.
        reflexivity.
      * rewrite react_down_backoff
          by (cbn [consecutiveFailures]; rewrite Hwrap; lia).
        cbn [fst consecutiveFailures currentBackoff]. rewrite Hwrap.
        f_equal.
        replace (Z.max 0 (k - 1)) with (k - 1) by lia.
        replace (Z.max 0 (Z.succ k - 1)) with (Z.succ (k - 1)) by lia.
        rewrite Z.pow_succ_r by lia.
        set (a := initialBackoffFlag f * g ^ (k - 1)).
        assert (Ha : 0 <= a)
          by (apply Z.mul_nonneg_nonneg; [lia|apply Z.pow_nonneg; lia]).
        unfold scaled. rewrite Hfactor.
        rewrite (integer_product_exact unrepresentable
                   (Z.min a (maxBackoffFlag f)) g);
          [|lia|assumption|nia].
        rewrite min_scaled by lia. f_equal. unfold a. ring.
    + rewrite react_up. cbn [fst]. unfold initial_state. f_equal.
      change (Z.max 0 (Z.of_nat 0 - 1)) with 0. rewrite Z.pow_0_r. lia.
Qed.

(** Scenario C: four DOWN cycles leave the counter at 4 and the delay at
    the cap. *)
Lemma backoff_schedule_witness :
  backoffFactorFlag scenario_flags = of_int 2
  /\ 1 <= 2 <= 2 ^ 53
  /\ 0 <= initialBackoffFlag scenario_flags <= maxBackoffFlag scenario_flags
  /\ maxBackoffFlag scenario_flags * 2 <= 2 ^ 53
  /\ Z.of_nat 4 < 2 ^ 63
  /\ fst (loop amd64 scenario_flags (fun _ => outage) 4 O
            (initial_state scenario_flags))
     = {| consecutiveFailures := 4; currentBackoff := 300 |}.
Proof.
  assert (Hfactor : backoffFactorFlag scenario_flags = of_int 2)
    by reflexivity.
  assert (Hg : 1 <= 2 <= 2 ^ 53) by lia.
  assert (Hinit : 0 <= initialBackoffFlag scenario_flags
                  <= maxBackoffFlag scenario_flags) by (cbn; lia).
  assert (Hmax : maxBackoffFlag scenario_flags * 2 <= 2 ^ 53) by (cbn; lia).
  assert (Hn : Z.of_nat 4 < 2 ^ 63) by (cbn; lia).
  exact (conj Hfactor (conj Hg (conj Hinit (conj Hmax (conj Hn
           (backoff_schedule amd64 scenario_flags 2 (fun _ => outage) 4
              Hfactor Hg Hinit Hmax Hn)))))).
Defined.

(** X4: whatever the factor (below one, infinite or not a number) and
    whatever the platform does with a product that does not convert,
    the delay of a reachable state never exceeds the larger of the
    initial and the maximal delay. *)
Theorem delay_never_exceeds_cap (unrepresentable : float64 -> Z) (f : flags)
    (st : backoff) :
  reachable unrepresentable f st ->
  currentBackoff st <= Z.max (initialBackoffFlag f) (maxBackoffFlag f).
Proof.
  intros Hreach.
  induction Hreach as [|env st Hreach IH]; [cbn; lia|].
  rewrite cycle_react. cbn [fst].
  destruct (fst (outcome f env)).
  - destruct (Z.le_gt_cases (wrap (consecutiveFailures st + 1)) 1) as [Hle|Hgt].
    + now rewrite react_down_base.
    + rewrite react_down_backoff by assumption. cbn [fst currentBackoff]. lia.
  - rewrite react_up. cbn. lia.
Qed.

(** A factor that is not a number, after two DOWN cycles. *)
Lemma delay_never_exceeds_cap_witness :
  let f := flags_of 3 60 300 S754_nan in
  let st := fst (cycle amd64 f outage
              (fst (cycle amd64 f outage (initial_state f)))) in
  reachable amd64 f st /\ currentBackoff st <= 300.
Proof.
  cbv zeta.
  assert (Hreach : reachable amd64 (flags_of 3 60 300 S754_nan)
                     (fst (cycle amd64 (flags_of 3 60 300 S754_nan) outage
                        (fst (cycle amd64 (flags_of 3 60 300 S754_nan) outage
                           (initial_state (flags_of 3 60 300 S754_nan)))))))
    by (repeat apply reachable_cycle; apply reachable_initial).
  exact (conj Hreach
           (delay_never_exceeds_cap amd64 (flags_of 3 60 300 S754_nan) _
              Hreach)).
Defined.

(** X5: the state stays well typed: when the two delay flags are [int]s
    and the platform converts every float to an [int], the counter and
    the delay of every reachable state are [int]s. *)
Theorem reachable_states_are_ints (unrepresentable : float64 -> Z)
    (f : flags) (st : backoff) :
  (forall x, is_int (unrepresentable x)) ->
  is_int (initialBackoffFlag f) -> is_int (maxBackoffFlag f) ->
  reachable unrepresentable f st ->
  is_int (consecutiveFailures st) /\ is_int (currentBackoff st).
Proof.
  intros Hconv Hinit Hmax Hreach.
  induction Hreach as [|env st Hreach IH].
  - split; [unfold is_int, int_min, int_max; cbn; lia|assumption].
  - rewrite cycle_react. cbn [fst].
    destruct (fst (outcome f env)).
    + destruct (Z.le_gt_cases (wrap (consecutiveFailures st + 1)) 1)
        as [Hle|Hgt].
      * rewrite react_down_base by assumption.
        cbn [fst consecutiveFailures currentBackoff].
        split; [apply wrap_is_int|apply IH].
      * rewrite react_down_backoff by assumption.
        cbn [fst consecutiveFailures currentBackoff].
        split; [apply wrap_is_int|].
        assert (Hscaled : is_int (scaled unrepresentable f (currentBackoff st))).
        { unfold scaled, to_int.
          destruct (int_value _) as [t|] eqn:Hval; [|apply Hconv].
          unfold int_value in Hval.
          destruct (mul _ _) as [s|s| |s m e]; try discriminate.
          - injection Hval as <-. unfold is_int, int_min, int_max. lia.
          - destruct (fits (truncate s m e)) eqn:Hfit; [|discriminate].
            injection Hval as <-. now apply fits_is_int. }
        unfold is_int in *. lia.
    + rewrite react_up. cbn [fst initial_state consecutiveFailures
                               currentBackoff].
      split; [unfold is_int, int_min, int_max; lia|assumption].
Qed.

(** The steep factor on amd64: the delay is -2^63, still an [int]. *)
Lemma reachable_states_are_ints_witness :
  let st := fst (cycle amd64 steep_factor_flags outage
              (fst (cycle amd64 steep_factor_flags outage
                 (initial_state steep_factor_flags)))) in
  (forall x, is_int (amd64 x))
  /\ is_int (initialBackoffFlag steep_factor_flags)
  /\ is_int (maxBackoffFlag steep_factor_flags)
  /\ reachable amd64 steep_factor_flags st
  /\ is_int (consecutiveFailures st) /\ is_int (currentBackoff st).
Proof.
  cbv zeta.
  assert (Hconv : forall x, is_int (amd64 x))
    by (intros x; unfold amd64, is_int, int_min, int_max; lia).
  assert (Hinit : is_int (initialBackoffFlag steep_factor_flags))
    by (unfold is_int, int_min, int_max; cbn; lia).
  assert (Hmax : is_int (maxBackoffFlag steep_factor_flags))
    by (unfold is_int, int_min, int_max; cbn; lia).
  assert (Hreach : reachable amd64 steep_factor_flags
                     (fst (cycle amd64 steep_factor_flags outage
                        (fst (cycle amd64 steep_factor_flags outage
                           (initial_state steep_factor_flags))))))
    by (repeat apply reachable_cycle; apply reachable_initial).
  exact (conj Hconv (conj Hinit (conj Hmax (conj Hreach
           (reachable_states_are_ints amd64 steep_factor_flags _
              Hconv Hinit Hmax Hreach))))).
Defined.

(** X6: once the delay sits at the maximum it stays there through every
    further DOWN cycle, for a factor of at least one, a maximum of at
    most 53 bits and a product that converts back to [int]. *)
Theorem capped_delay_stays_capped (unrepresentable : float64 -> Z)
    (f : flags) (st : backoff) (r : exec_result) :
  valid (backoffFactorFlag f) ->
  leb one (backoffFactorFlag f) = true ->
  0 <= maxBackoffFlag f <= 2 ^ 53 ->
  int_value (mul (of_int (maxBackoffFlag f)) (backoffFactorFlag f)) <> None ->
  currentBackoff st = maxBackoffFlag f ->
  currentBackoff (fst (react unrepresentable f st true r)) = maxBackoffFlag f.
Proof.
  intros Hvalid Hone Hmax Hfits Hcap.
  destruct (Z.le_gt_cases (wrap (consecutiveFailures st + 1)) 1) as [Hle|Hgt].
  - now rewrite react_down_base.
  - rewrite react_down_backoff by assumption. cbn [fst currentBackoff].
    rewrite Hcap.
    pose proof (scaling_grows unrepresentable (maxBackoffFlag f)
                  (backoffFactorFlag f) Hvalid Hone Hmax Hfits).
    unfold scaled. lia.
Qed.

(** The fifth DOWN cycle of scenario C. *)
Lemma capped_delay_stays_capped_witness :
  let st := {| consecutiveFailures := 4; currentBackoff := 300 |} in
  valid (backoffFactorFlag scenario_flags)
  /\ leb one (backoffFactorFlag scenario_flags) = true
  /\ 0 <= maxBackoffFlag scenario_flags <= 2 ^ 53
  /\ currentBackoff st = maxBackoffFlag scenario_flags
  /\ currentBackoff (fst (react amd64 scenario_flags st true (run outage)))
     = 300.
Proof.
  cbv zeta.
  assert (Hvalid : valid (backoffFactorFlag scenario_flags)) by reflexivity.
  assert (Hone : leb one (backoffFactorFlag scenario_flags) = true)
    by reflexivity.
  assert (Hmax : 0 <= maxBackoffFlag scenario_flags <= 2 ^ 53) by (cbn; lia).
  assert (Hfits : int_value (mul (of_int (maxBackoffFlag scenario_flags))
                               (backoffFactorFlag scenario_flags)) <> None)
    by (vm_compute; discriminate).
  assert (Hcap : currentBackoff
                   {| consecutiveFailures := 4; currentBackoff := 300 |}
                 = maxBackoffFlag scenario_flags) by reflexivity.
  exact (conj Hvalid (conj Hone (conj Hmax (conj Hcap
           (capped_delay_stays_capped amd64 scenario_flags _ (run outage)
              Hvalid Hone Hmax Hfits Hcap))))).
Defined.

(** ** The trace of the prober *)

Lemma Forall_closes (url : string) (retries : Z) (n : nat) :
  Forall (probe_event url retries) (repeat EClose n).
Proof. induction n; cbn [repeat]; constructor; cbn; auto. Qed.

Lemma attempts_events (url : string) (net : nat -> get_result) (retries : Z)
    (verbose : bool) (fuel : nat) :
  forall i opened down tr,
    attempts url net retries verbose fuel i opened = Some (down, tr) ->
    Forall (probe_event url retries) tr.
Proof.
  induction fuel as [|fuel IH]; intros i opened down tr; [discriminate|].
  cbn [attempts].
  destruct (i <? retries);
    [|intros H; injection H as <- <-; apply Forall_closes].
  destruct (net (Z.to_nat i)) as [err|code].
  - destruct (i <? wrap (retries - 1)).
    + destruct (attempts url net retries verbose fuel _ _)
        as [[down' tr']|] eqn:Hrec; [|discriminate].
      intros H; injection H as <- <-.
      constructor; [reflexivity|]. apply Forall_app. split.
      * destruct verbose; repeat constructor.
      * constructor; [reflexivity|]. eapply IH; eassumption.
    + intros H; injection H as <- <-.
      constructor; [reflexivity|]. apply Forall_app. split.
      * destruct verbose; repeat constructor.
      * apply Forall_closes.
  - destruct ((code <? 200) || (code >=? 400)).
    + destruct (i <? wrap (retries - 1)).
      * destruct (attempts url net retries verbose fuel _ _)
          as [[down' tr']|] eqn:Hrec; [|discriminate].
        intros H; injection H as <- <-.
        constructor; [reflexivity|]. apply Forall_app. split.
        -- destruct verbose; repeat constructor.
        -- constructor; [reflexivity|]. eapply IH; eassumption.
      * intros H; injection H as <- <-.
        constructor; [reflexivity|]. apply Forall_app. split.
        -- destruct verbose; repeat constructor.
        -- apply (Forall_closes url retries (S opened)).
    + intros H; injection H as <- <-.
      constructor; [reflexivity|]. apply (Forall_closes url retries (S opened)).
Qed.

Lemma checkWebsiteDown_events (url : string) (net : nat -> get_result)
    (retries : Z) (verbose : bool) :
  Forall (probe_event url retries)
    (snd (checkWebsiteDown url net retries verbose)).
Proof.
  unfold checkWebsiteDown.
  destruct (attempts url net retries verbose _ 0 0) as [[down tr]|] eqn:H;
    [|constructor].
  eapply attempts_events; eassumption.
Qed.

Lemma closes_app (a b : list event) :
  closes (a ++ b) = (closes a ++ closes b)%list.
Proof. apply filter_app. Qed.

Lemma closes_repeat (n : nat) : closes (repeat EClose n) = repeat EClose n.
Proof. induction n as [|n IH]; cbn; [|rewrite <- IH at 2]; reflexivity. Qed.

Lemma logs_app (a b : list event) : logs (a ++ b) = (logs a ++ logs b)%list.
Proof. apply filter_app. Qed.

Lemma logs_repeat (n : nat) : logs (repeat EClose n) = [].
Proof. induction n; cbn; auto. Qed.

Lemma sleeps_repeat (n : nat) : sleeps (repeat EClose n) = [].
Proof. induction n; cbn; auto. Qed.

Lemma gets_repeat_length (n : nat) :
  List.length (gets (repeat EClose n)) = O.
Proof. now rewrite gets_closes. Qed.

(** Unfolding the filters of a trace over its known head events. *)
Ltac trace_heads :=
  repeat (rewrite ?gets_closes, ?sleeps_repeat, ?closes_repeat, ?logs_repeat;
          cbn [gets sleeps closes logs filter flat_map is_get is_log
               is_close app List.length Init.Nat.pred];
          change (filter is_get ?l) with (gets l);
          change (filter is_log ?l) with (logs l);
          change (filter is_close ?l) with (closes l);
          repeat match goal with
                 | |- context [flat_map ?f ?l] =>
                     change (flat_map f l) with (sleeps l)
                 end).

Lemma attempts_counts (url : string) (net : nat -> get_result) (retries : Z)
    (verbose : bool) (fuel : nat) :
  retries <= int_max ->
  forall i opened down tr,
    0 <= i ->
    attempts url net retries verbose fuel i opened = Some (down, tr) ->
    probe_counts net verbose i opened down tr
    /\ (i < retries -> (1 <= List.length (gets tr))%nat).
Proof.
  intros Hint. unfold int_max in Hint.
  induction fuel as [|fuel IH]; intros i opened down tr Hi; [discriminate|].
  cbn [attempts].
  destruct (Z.ltb_spec i retries) as [Hlt|Hge].
  2:{ intros H; injection H as <- <-. split; [|lia].
      constructor; trace_heads.
      - reflexivity.
      - exists []. cbn [responses]. rewrite Nat.add_0_r. now repeat split.
      - now destruct verbose. }
  assert (Hw1 : wrap (retries - 1) = retries - 1)
    by (apply wrap_small; unfold is_int, int_min, int_max; lia).
  assert (Hw2 : wrap (i + 1) = i + 1)
    by (apply wrap_small; unfold is_int, int_min, int_max; lia).
  rewrite Hw1, Hw2.
  assert (Hnext : Z.to_nat (i + 1) = S (Z.to_nat i)) by lia.
  destruct (net (Z.to_nat i)) as [err|code] eqn:Hnet.
  - destruct (Z.ltb_spec i (retries - 1)) as [Hmore|Hlast].
    + destruct (attempts url net retries verbose fuel (i + 1) opened)
        as [[down' tr']|] eqn:Hrec; [|discriminate].
      intros H; injection H as <- <-.
      destruct (IH (i + 1) opened down' tr' ltac:(lia) Hrec)
        as ([Hs (body & Htr & Hbody & Hgets) Hl] & Hmade).
      specialize (Hmade ltac:(lia)). rewrite Hnext in Htr.
      split; [|destruct verbose; trace_heads; lia].
      constructor.
      * destruct verbose; trace_heads; lia.
      * exists (EGet url
                 :: (if verbose
                     then [ELog (LogRequestFailed (i + 1) retries err)]
                     else []) ++ ESleep (wrap (2 * Second)) :: body)%list.
        destruct verbose; trace_heads; cbn [responses]; rewrite Hnet;
          (split; [rewrite Htr at 1; reflexivity|]);
          (split; [assumption|now rewrite Hgets]).
      * destruct verbose, down'; trace_heads; lia.
    + intros H; injection H as <- <-.
      split; [|destruct verbose; trace_heads; lia].
      constructor.
      * destruct verbose; trace_heads; reflexivity.
      * exists (EGet url
                 :: (if verbose
                     then [ELog (LogRequestFailed (i + 1) retries err)]
                     else []))%list.
        destruct verbose; trace_heads; cbn [responses]; rewrite Hnet,
          Nat.add_0_r; now repeat split.
      * destruct verbose; trace_heads; reflexivity.
  - destruct ((code <? 200) || (code >=? 400)).
    + destruct (Z.ltb_spec i (retries - 1)) as [Hmore|Hlast].
      * destruct (attempts url net retries verbose fuel (i + 1) (S opened))
          as [[down' tr']|] eqn:Hrec; [|discriminate].
        intros H; injection H as <- <-.
        destruct (IH (i + 1) (S opened) down' tr' ltac:(lia) Hrec)
          as ([Hs (body & Htr & Hbody & Hgets) Hl] & Hmade).
        specialize (Hmade ltac:(lia)). rewrite Hnext in Htr.
        split; [|destruct verbose; trace_heads; lia].
        constructor.
        -- destruct verbose; trace_heads; lia.
        -- exists (EGet url
                    :: (if verbose
                        then [ELog (LogBadStatus (i + 1) retries code)]
                        else []) ++ ESleep (wrap (2 * Second)) :: body)%list.
           destruct verbose; trace_heads; cbn [responses]; rewrite Hnet,
             Nat.add_succ_r;
             (split; [rewrite Htr at 1; reflexivity|]);
             (split; [assumption|now rewrite Hgets]).
        -- destruct verbose, down'; trace_heads; lia.
      * intros H; injection H as <- <-.
        split; [|destruct verbose; trace_heads; lia].
        constructor.
        -- destruct verbose; trace_heads; reflexivity.
        -- exists (EGet url
                    :: (if verbose
                        then [ELog (LogBadStatus (i + 1) retries code)]
                        else []))%list.
           destruct verbose; trace_heads; cbn [responses]; rewrite Hnet,
             Nat.add_1_r; now repeat split.
        -- destruct verbose; trace_heads; reflexivity.
    + intros H; injection H as <- <-.
      split; [|trace_heads; lia].
      constructor.
      * trace_heads. reflexivity.
      * exists [EGet url]. trace_heads. cbn [responses].
        rewrite Hnet, Nat.add_1_r. now repeat split.
      * trace_heads. now destruct verbose.
Qed.

Lemma policy_made_bounds (net : nat -> get_result) (n : nat) :
  forall k,
    (snd (policy net n k) <= n)%nat
    /\ ((1 <= n)%nat -> (1 <= snd (policy net n k))%nat).
Proof.
  induction n as [|n IH]; intros k; cbn [policy]; [cbn; lia|].
  destruct (attempt_ok (net k)); [cbn; lia|].
  specialize (IH (S k)).
  destruct (policy net n (S k)) as [down made]. cbn [snd] in *. lia.
Qed.

Lemma probe_events_gets (url : string) (retries : Z) (tr : list event) :
  Forall (probe_event url retries) tr ->
  gets tr = repeat (EGet url) (List.length (gets tr)).
Proof.
  induction 1 as [|e tr He _ IH]; [reflexivity|].
  destruct e; cbn [gets filter is_get] in *; fold (gets tr); try assumption.
  cbn [List.length repeat]. cbn in He. subst. now rewrite <- IH.
Qed.


Lemma checkWebsiteDown_counts (url : string) (net : nat -> get_result)
    (retries : Z) (verbose : bool) :
  retries <= int_max ->
  probe_counts net verbose 0 O
    (fst (checkWebsiteDown url net retries verbose))
    (snd (checkWebsiteDown url net retries verbose)).
Proof.
  intros Hint.
  pose proof (checkWebsiteDown_returns url net retries verbose
                (S (Z.to_nat retries)) Hint ltac:(lia)) as Hret.
  destruct (checkWebsiteDown url net retries verbose) as [down tr].
  exact (proj1 (attempts_counts url net retries verbose _ Hint 0 O down tr
                  ltac:(lia) Hret)).
Qed.

(** ** Properties of the prober *)

(** X7: with a budget of at least one attempt [checkWebsiteDown] makes
    at least one and at most [retries] requests, all of them to the
    url it was given. *)
Theorem prober_request_bounds (url : string) (net : nat -> get_result)
    (retries : Z) (verbose : bool) :
  1 <= retries -> retries <= int_max ->
  let tr := snd (checkWebsiteDown url net retries verbose) in
  (1 <= List.length (gets tr) <= Z.to_nat retries)%nat
  /\ gets tr = repeat (EGet url) (List.length (gets tr)).
Proof.
  intros Hone Hint. cbv zeta.
  destruct (checkWebsiteDown_policy url net retries verbose Hint)
    as (_ & Hmade).
  destruct (policy_made_bounds net (Z.to_nat retries) O) as (Hle & Hge).
  split; [rewrite Hmade; lia|].
  apply (probe_events_gets url retries), checkWebsiteDown_events.
Qed.

(** Scenario B: two timeouts within a budget of two attempts. *)
Lemma prober_request_bounds_witness :
  let tr := snd (checkWebsiteDown "http://service.test/health"
                   (fun _ => GetError "timeout") 2 false) in
  1 <= 2 /\ 2 <= int_max
  /\ (1 <= List.length (gets tr) <= 2)%nat.
Proof.
  cbv zeta.
  assert (Hone : 1 <= 2) by lia.
  assert (Hint : 2 <= int_max) by (unfold int_max; lia).
  exact (conj Hone (conj Hint
           (proj1 (prober_request_bounds "http://service.test/health"
                     (fun _ => GetError "timeout") 2 false Hone Hint)))).
Defined.



(** X9: every response [checkWebsiteDown] receives is closed exactly
    once, and only when the function returns: the trace ends with one
    close per response among the attempts made, and everything before,
    all the requests included, is free of closes. *)
Theorem prober_closes_every_response (url : string)
    (net : nat -> get_result) (retries : Z) (verbose : bool) :
  retries <= int_max ->
  let tr := snd (checkWebsiteDown url net retries verbose) in
  exists body,
    tr = (body ++ repeat EClose (responses net O (List.length (gets tr))))%list
    /\ closes body = []
    /\ gets body = gets tr.
Proof.
  intros Hint. cbv zeta.
  destruct (checkWebsiteDown_counts url net retries verbose Hint)
    as [_ Hc _].
  exact Hc.
Qed.

(** Scenario A: the 503 and the 200 are closed after the last request. *)
Lemma prober_closes_every_response_witness :
  let net := fun k => match k with
                      | O => GetError "timeout"
                      | S O => GetResponse 503
                      | _ => GetResponse 200
                      end in
  let tr := snd (checkWebsiteDown "http://service.test/health" net 3 false) in
  3 <= int_max
  /\ exists body, tr = (body ++ [EClose; EClose])%list /\ closes body = [].
Proof.
  cbv zeta.
  assert (Hint : 3 <= int_max) by (unfold int_max; lia).
  destruct (prober_closes_every_response "http://service.test/health"
              (fun k => match k with
                        | O => GetError "timeout"
                        | S O => GetResponse 503
                        | _ => GetResponse 200
                        end) 3 false Hint) as (body & Htr & Hbody & _).
  exact (conj Hint (ex_intro _ body (conj Htr Hbody))).
Defined.

(** X10: without [verbose] [checkWebsiteDown] writes no log line; with
    it, one line per failed attempt it made and nothing else. *)
Theorem prober_logs_failed_attempts (url : string)
    (net : nat -> get_result) (retries : Z) (verbose : bool) :
  retries <= int_max ->
  let result := checkWebsiteDown url net retries verbose in
  let made := List.length (gets (snd result)) in
  List.length (logs (snd result))
  = if verbose then if fst result then made else pred made else O.
Proof.
  intros Hint. cbv zeta.
  destruct (checkWebsiteDown_counts url net retries verbose Hint)
    as [_ _ Hl].
  exact Hl.
Qed.

(** Scenario A with [verbose]: two failed attempts, two lines. *)
Lemma prober_logs_failed_attempts_witness :
  let net := fun k => match k with
                      | O => GetError "timeout"
                      | S O => GetResponse 503
                      | _ => GetResponse 200
                      end in
  3 <= int_max
  /\ List.length
       (logs (snd (checkWebsiteDown "http://service.test/health" net 3 true)))
     = 2%nat.
Proof.
  cbv zeta.
  assert (Hint : 3 <= int_max) by (unfold int_max; lia).
  exact (conj Hint
           (prober_logs_failed_attempts "http://service.test/health"
              (fun k => match k with
                        | O => GetError "timeout"
                        | S O => GetResponse 503
                        | _ => GetResponse 200
                        end) 3 true Hint)).
Defined.

Lemma attempts_local (url : string) (net1 net2 : nat -> get_result)
    (retries : Z) (verbose : bool) (fuel : nat) :
  retries <= int_max ->
  (forall k, (k < Z.to_nat retries)%nat -> net1 k = net2 k) ->
  forall i opened,
    0 <= i ->
    attempts url net1 retries verbose fuel i opened
    = attempts url net2 retries verbose fuel i opened.
Proof.
  intros Hint Hagree. unfold int_max in Hint.
  induction fuel as [|fuel IH]; intros i opened Hi; [reflexivity|].
  cbn [attempts].
  destruct (Z.ltb_spec i retries) as [Hlt|Hge]; [|reflexivity].
  rewrite <- (Hagree (Z.to_nat i)) by lia.
  assert (Hw : wrap (i + 1) = i + 1)
    by (apply wrap_small; unfold is_int, int_min, int_max; lia).
  rewrite Hw, !IH by lia. reflexivity.
Qed.

(** X11: [checkWebsiteDown] looks at the answers to its first
    [retries] requests only: two networks that agree on them give the
    same classification and the same trace. *)
Theorem prober_reads_only_its_budget (url : string)
    (net1 net2 : nat -> get_result) (retries : Z) (verbose : bool) :
  retries <= int_max ->
  (forall k, (k < Z.to_nat retries)%nat -> net1 k = net2 k) ->
  checkWebsiteDown url net1 retries verbose
  = checkWebsiteDown url net2 retries verbose.
Proof.
  intros Hint Hagree. unfold checkWebsiteDown.
  now rewrite (attempts_local url net1 net2 retries verbose _ Hint Hagree).
Qed.

(** A site that recovers at the third request, probed with a budget of
    two, is as good as dead. *)
Lemma prober_reads_only_its_budget_witness :
  let late := fun k => match k with
                       | O | S O => GetError "timeout"
                       | _ => GetResponse 200
                       end in
  2 <= int_max
  /\ checkWebsiteDown "http://service.test/health" late 2 false
     = checkWebsiteDown "http://service.test/health"
         (fun _ => GetError "timeout") 2 false.
Proof.
  cbv zeta.
  assert (Hint : 2 <= int_max) by (unfold int_max; lia).
  refine (conj Hint
            (prober_reads_only_its_budget "http://service.test/health"
               (fun k => match k with
                         | O | S O => GetError "timeout"
                         | _ => GetResponse 200
                         end)
               (fun _ => GetError "timeout") 2 false Hint _)).
  intros [|[|k]] Hk; [reflexivity|reflexivity|].
  change (Z.to_nat 2) with 2%nat in Hk. lia.
Defined.

Lemma policy_more_budget (net : nat -> get_result) (n : nat) :
  forall k extra,
    fst (policy net n k) = false ->
    policy net (n + extra) k = policy net n k.
Proof.
  induction n as [|n IH]; intros k extra; cbn [policy Nat.add];
    [discriminate|].
  destruct (attempt_ok (net k)); [reflexivity|].
  specialize (IH (S k) extra).
  destruct (policy net n (S k)) as [down made]. cbn [fst] in *.
  intros Hup. now rewrite (IH Hup).
Qed.

(** X12: a larger budget never turns UP into DOWN: a site classified
    UP with some budget is classified UP with every larger one, after
    the same number of requests. *)
Theorem larger_budget_keeps_up (url : string) (net : nat -> get_result)
    (retries retries' : Z) (verbose : bool) :
  retries <= retries' -> retries' <= int_max ->
  fst (checkWebsiteDown url net retries verbose) = false ->
  fst (checkWebsiteDown url net retries' verbose) = false
  /\ List.length (gets (snd (checkWebsiteDown url net retries' verbose)))
     = List.length (gets (snd (checkWebsiteDown url net retries verbose))).
Proof.
  intros Hle Hint Hup.
  destruct (checkWebsiteDown_policy url net retries verbose ltac:(lia))
    as (Hd & Hm).
  destruct (checkWebsiteDown_policy url net retries' verbose Hint)
    as (Hd' & Hm').
  rewrite Hd in Hup. rewrite Hd', Hm', Hm.
  assert (Hpos : 0 < retries).
  { destruct (Z.lt_ge_cases 0 retries) as [|Hneg]; [assumption|].
    replace (Z.to_nat retries) with O in Hup by lia. discriminate. }
  replace (Z.to_nat retries')
    with (Z.to_nat retries + Z.to_nat (retries' - retries))%nat by lia.
  rewrite (policy_more_budget net _ O _ Hup). now split.
Qed.

(** Scenario A with a budget of five instead of three. *)
Lemma larger_budget_keeps_up_witness :
  let net := fun k => match k with
                      | O => GetError "timeout"
                      | S O => GetResponse 503
                      | _ => GetResponse 200
                      end in
  3 <= 5 /\ 5 <= int_max
  /\ fst (checkWebsiteDown "http://service.test/health" net 3 false) = false
  /\ fst (checkWebsiteDown "http://service.test/health" net 5 false) = false.
Proof.
  cbv zeta.
  assert (Hle : 3 <= 5) by lia.
  assert (Hint : 5 <= int_max) by (unfold int_max; lia).
  assert (Hup : fst (checkWebsiteDown "http://service.test/health"
                       (fun k => match k with
                                 | O => GetError "timeout"
                                 | S O => GetResponse 503
                                 | _ => GetResponse 200
                                 end) 3 false) = false) by reflexivity.
  exact (conj Hle (conj Hint (conj Hup
           (proj1 (larger_budget_keeps_up "http://service.test/health" _
                     3 5 false Hle Hint Hup))))).
Defined.

(** X13: [checkWebsiteDown] does nothing but probe: every event of its
    trace is a request to its url, a close, one of its two log lines
    (carrying its budget) or a pause of exactly two seconds; it never
    launches a process and never prints. *)
Theorem prober_only_probes (url : string) (net : nat -> get_result)
    (retries : Z) (verbose : bool) (e : event) :
  In e (snd (checkWebsiteDown url net retries verbose)) ->
  match e with
  | EGet u => u = url
  | EClose => True
  | ELog (LogRequestFailed _ budget _) | ELog (LogBadStatus _ budget _) =>
      budget = retries
  | ESleep d => d = 2 * Second
  | ELog _ | EExec _ | EPrint _ => False
  end.
Proof.
  intros Hin.
  pose proof (checkWebsiteDown_events url net retries verbose) as Hall.
  rewrite Forall_forall in Hall. specialize (Hall e Hin).
  destruct e as [u| |[]|d|p|s]; exact Hall.
Qed.

(** The pause of scenario B. *)
Lemma prober_only_probes_witness :
  In (ESleep 2000000000)
    (snd (checkWebsiteDown "http://service.test/health"
            (fun _ => GetError "timeout") 2 false))
  /\ 2000000000 = 2 * Second.
Proof.
  assert (Hin : In (ESleep 2000000000)
                  (snd (checkWebsiteDown "http://service.test/health"
                          (fun _ => GetError "timeout") 2 false)))
    by (vm_compute; auto).
  exact (conj Hin
           (prober_only_probes "http://service.test/health"
              (fun _ => GetError "timeout") 2 false (ESleep 2000000000) Hin)).
Defined.

(** ** Properties of the loops *)

Lemma launches_app (a b : list event) :
  launches (a ++ b) = (launches a ++ launches b)%list.
Proof. apply filter_app. Qed.

Lemma essential_app (a b : list event) :
  essential (a ++ b) = (essential a ++ essential b)%list.
Proof. apply filter_app. Qed.

Lemma launches_probe (url : string) (retries : Z) (tr : list event) :
  Forall (probe_event url retries) tr -> launches tr = [].
Proof.
  induction 1 as [|e tr He _ IH]; [reflexivity|].
  destruct e as [u| |l|d|p|s]; cbn [launches filter is_exec];
    try assumption; contradiction.
Qed.

Lemma launches_executeELF (elfPath : string) (r : exec_result) :
  launches (executeELF elfPath r) = [EExec elfPath].
Proof.
  unfold executeELF.
  destruct (CombinedOutput r) as [output [err|]]; reflexivity.
Qed.

Lemma launches_react (unrepresentable : float64 -> Z) (f : flags)
    (st : backoff) (siteDown : bool) (r : exec_result) :
  launches (snd (react unrepresentable f st siteDown r))
  = if siteDown then [EExec (elfPathFlag f)] else [].
Proof.
  destruct siteDown.
  - destruct (Z.le_gt_cases (wrap (consecutiveFailures st + 1)) 1) as [Hle|Hgt].
    + rewrite react_down_base by assumption. cbn [snd].
      change (?e :: ?a) with ([e] ++ a)%list.
      now rewrite !launches_app, launches_executeELF.
    + rewrite react_down_backoff by assumption. cbn [snd].
      change (?e :: ?a) with ([e] ++ a)%list.
      now rewrite !launches_app, launches_executeELF.
  - rewrite react_up. cbn [snd]. now destruct (verboseFlag f).
Qed.

(** X14: the binary is launched once in every cycle whose probe reports
    DOWN and never otherwise: over any number of cycles, from any
    state, the launches of the trace are one per DOWN cycle, all of the
    configured binary. *)
Theorem binary_launched_once_per_down_cycle (unrepresentable : float64 -> Z)
    (f : flags) (world : nat -> cycle_env) (n : nat) :
  forall k st,
    launches (snd (loop unrepresentable f world n k st))
    = repeat (EExec (elfPathFlag f))
        (List.length
           (filter (fun j => fst (outcome f (world j))) (seq k n))).
Proof.
  induction n as [|n IH]; intros k st; [reflexivity|].
  cbn [loop seq filter].
  rewrite (cycle_react unrepresentable f (world k) st).
  specialize (IH (S k)
                (fst (react unrepresentable f st (fst (outcome f (world k)))
                        (snd (outcome f (world k)))))).
  destruct (loop unrepresentable f world n (S k) _) as [st' tr'].
  cbn [snd] in *.
  rewrite !launches_app, launches_react, IH.
  rewrite (launches_probe (urlFlag f) (retriesFlag f))
    by apply checkWebsiteDown_events.
  now destruct (fst (outcome f (world k))).
Qed.

(** *** The plain monitor and the backoff monitor *)

Lemma plain_cycle_trace (f : flags) (env : cycle_env) :
  Plain.cycle (plain f) env
  = (snd (checkWebsiteDown (urlFlag f) (net env) (retriesFlag f)
            (verboseFlag f))
     ++ (if fst (outcome f env)
         then ELog (LogDown (urlFlag f))
                :: executeELF (elfPathFlag f) (run env)
         else if verboseFlag f then [ELog (LogUp (urlFlag f))] else [])
     ++ [ESleep (seconds (intervalFlag f))])%list.
Proof.
  unfold Plain.cycle, Basic.checkWebsiteDown, outcome. cbn [plain
    Plain.urlFlag Plain.retriesFlag Plain.verboseFlag Plain.elfPathFlag
    Plain.intervalFlag fst].
  rewrite attempts_agree. fold (checkWebsiteDown (urlFlag f) (net env)
                                  (retriesFlag f) (verboseFlag f)).
  now destruct (checkWebsiteDown _ _ _ _) as [siteDown probing].
Qed.

Lemma essential_executeELF (elfPath : string) (r : exec_result) :
  essential (executeELF elfPath r) = executeELF elfPath r.
Proof.
  unfold executeELF.
  destruct (CombinedOutput r) as [output [err|]]; reflexivity.
Qed.

Lemma essential_cycle (unrepresentable : float64 -> Z) (f : flags)
    (env : cycle_env) (st : backoff) :
  essential (snd (cycle unrepresentable f env st))
  = essential (Plain.cycle (plain f) env).
Proof.
  rewrite cycle_react, plain_cycle_trace. cbn [snd].
  rewrite !essential_app. f_equal. unfold outcome at 2. cbn [snd].
  destruct (fst (outcome f env)).
  - destruct (Z.le_gt_cases (wrap (consecutiveFailures st + 1)) 1) as [Hle|Hgt].
    + rewrite react_down_base by assumption. cbn [snd].
      now rewrite essential_app.
    + rewrite react_down_backoff by assumption. cbn [snd].
      now rewrite essential_app.
  - rewrite react_up. cbn [snd]. now rewrite essential_app.
Qed.

(** X15: the backoff changes the pauses and adds its log line, nothing
    else: over any number of cycles and from any state, the trace of
    the backoff monitor and the trace of the plain monitor on the same
    flags coincide once pauses and backoff lines are removed. *)
Theorem backoff_changes_only_pauses (unrepresentable : float64 -> Z)
    (f : flags) (world : nat -> cycle_env) (n : nat) :
  forall k st,
    essential (snd (loop unrepresentable f world n k st))
    = essential (Plain.loop (plain f) world n k).
Proof.
  induction n as [|n IH]; intros k st; [reflexivity|].
  cbn [loop Plain.loop].
  pose proof (essential_cycle unrepresentable f (world k) st) as Hc.
  destruct (cycle unrepresentable f (world k) st) as [st' tr].
  specialize (IH (S k) st').
  destruct (loop unrepresentable f world n (S k) st') as [st'' tr'].
  cbn [snd] in *. now rewrite !essential_app, Hc, IH.
Qed.

Lemma plain_loop_when_never_twice (unrepresentable : float64 -> Z)
    (f : flags) (world : nat -> cycle_env) (n : nat) :
  forall k st (prev : bool),
    consecutiveFailures st = (if prev then 1 else 0) ->
    never_twice prev (map (fun j => fst (outcome f (world j))) (seq k n))
      = true ->
    snd (loop unrepresentable f world n k st) = Plain.loop (plain f) world n k.
Proof.
  induction n as [|n IH]; intros k st prev Hcount Hnever; [reflexivity|].
  cbn [seq map never_twice] in Hnever.
  apply andb_true_iff in Hnever. destruct Hnever as (Hnow & Hrest).
  cbn [loop Plain.loop].
  rewrite (cycle_react unrepresentable f (world k) st), plain_cycle_trace.
  unfold outcome at 2 4. cbn [snd].
  specialize (IH (S k)
                (fst (react unrepresentable f st (fst (outcome f (world k)))
                        (run (world k))))
                (fst (outcome f (world k)))).
  destruct (loop unrepresentable f world n (S k) _) as [st'' tr'].
  cbn [snd] in *.
  destruct (fst (outcome f (world k))).
  - destruct prev; [discriminate|].
    rewrite react_down_base in * by (rewrite Hcount; cbn; lia).
    cbn [fst snd consecutiveFailures] in *.
    rewrite IH; [now rewrite <- app_assoc|now rewrite Hcount|assumption].
  - rewrite react_up in *. cbn [fst snd] in *.
    rewrite IH; [now rewrite <- app_assoc|reflexivity|assumption].
Qed.

(** X16: the backoff engages from the second consecutive failure only:
    on a run in which no two consecutive cycles report DOWN the backoff
    monitor produces exactly the trace of the plain monitor. *)
Theorem backoff_idle_without_repeated_failure
    (unrepresentable : float64 -> Z) (f : flags) (world : nat -> cycle_env)
    (n : nat) :
  never_twice false (map (fun j => fst (outcome f (world j))) (seq 0 n))
    = true ->
  snd (loop unrepresentable f world n O (initial_state f))
  = Plain.loop (plain f) world n O.
Proof.
  intros Hnever.
  now apply (plain_loop_when_never_twice unrepresentable f world n O
               (initial_state f) false).
Qed.

(** An outage of one cycle between two healthy cycles. *)
Lemma backoff_idle_without_repeated_failure_witness :
  let healthy := {| net := fun _ => GetResponse 200; run := run outage |} in
  let world := fun k => match k with 1%nat => outage | _ => healthy end in
  never_twice false
    (map (fun j => fst (outcome scenario_flags (world j))) (seq 0 3)) = true
  /\ snd (loop amd64 scenario_flags world 3 O (initial_state scenario_flags))
     = Plain.loop (plain scenario_flags) world 3 O.
Proof.
  cbv zeta.
  assert (Hnever :
            never_twice false
              (map (fun j =>
                      fst (outcome scenario_flags
                             (match j with
                              | 1%nat => outage
                              | _ => {| net := fun _ => GetResponse 200;
                                        run := run outage |}
                              end))) (seq 0 3)) = true) by reflexivity.
  exact (conj Hnever
           (backoff_idle_without_repeated_failure amd64 scenario_flags
              (fun k => match k with
                        | 1%nat => outage
                        | _ => {| net := fun _ => GetResponse 200;
                                  run := run outage |}
                        end) 3 Hnever)).
Defined.

(** ** Start-up, pauses and the launched binary *)

(** The mask [0111] keeps the three execute bits of a file mode. *)
Lemma execute_bits (perm : Z) :
  Z.land perm 73 = 0 <->
  Z.testbit perm 0 = false /\ Z.testbit perm 3 = false
  /\ Z.testbit perm 6 = false.
Proof.
  split.
  - intros Hzero.
    assert (Hbit : forall n, Z.testbit perm n && Z.testbit 73 n = false)
      by (intros n; rewrite <- Z.land_spec, Hzero; apply Z.bits_0).
    pose proof (Hbit 0) as H0. pose proof (Hbit 3) as H3.
    pose proof (Hbit 6) as H6.
    change (Z.testbit 73 0) with true in H0.
    change (Z.testbit 73 3) with true in H3.
    change (Z.testbit 73 6) with true in H6.
    rewrite andb_true_r in *. now repeat split.
  - intros (H0 & H3 & H6). apply Z.bits_inj'. intros n Hn.
    rewrite Z.land_spec, Z.bits_0.
    destruct (Z.lt_ge_cases n 7) as [Hsmall|Hlarge].
    + assert (Hcases : n = 0 \/ n = 1 \/ n = 2 \/ n = 3 \/ n = 4 \/ n = 5
                       \/ n = 6) by lia.
      destruct Hcases as [->|[->|[->|[->|[->|[->| ->]]]]]];
        rewrite ?H0, ?H3, ?H6; try reflexivity; apply andb_false_r.
    + rewrite (Z.bits_above_log2 73 n) by (cbn; lia). apply andb_false_r.
Qed.

(** X17: [main] goes past its flag validation exactly when the url and
    the path are not empty, the path can be inspected and at least one
    of the three execute bits (owner, group, other) of its mode is set;
    no other flag is looked at, and the validation is the same in both
    programs. *)
Theorem startup_accepts_iff (f : flags) (stat : stat_result) :
  (startup f stat = None <->
   urlFlag f <> EmptyString /\ elfPathFlag f <> EmptyString
   /\ exists perm,
        stat = StatInfo perm
        /\ (Z.testbit perm 0 || Z.testbit perm 3 || Z.testbit perm 6) = true)
  /\ Plain.startup (plain f) stat = startup f stat.
Proof.
  split; [|reflexivity].
  unfold startup.
  destruct (String.eqb_spec (urlFlag f) "") as [Hurl|Hurl].
  { split; [discriminate|]. intros (H & _). contradiction. }
  destruct (String.eqb_spec (elfPathFlag f) "") as [Helf|Helf].
  { split; [discriminate|]. intros (_ & H & _). contradiction. }
  destruct stat as [err|perm].
  { split; [discriminate|]. intros (_ & _ & perm & H & _). discriminate. }
  destruct (Z.eqb_spec (Z.land perm 73) 0) as [Hzero|Hbits].
  - split; [discriminate|]. intros (_ & _ & perm' & Hperm & Hset).
    injection Hperm as <-.
    apply execute_bits in Hzero. destruct Hzero as (H0 & H3 & H6).
    rewrite H0, H3, H6 in Hset. discriminate.
  - split; [|reflexivity]. intros _.
    split; [assumption|]. split; [assumption|].
    exists perm. split; [reflexivity|].
    destruct (Z.testbit perm 0) eqn:H0; [reflexivity|].
    destruct (Z.testbit perm 3) eqn:H3; [reflexivity|].
    destruct (Z.testbit perm 6) eqn:H6; [reflexivity|].
    exfalso. apply Hbits. now apply execute_bits.
Qed.

(** X18: [time.Duration(n) * time.Second] is [n] seconds exactly for
    [n] between -9223372036 and 9223372036; beyond, the multiplication
    overflows and the pause is not the configured one. *)
Theorem seconds_exact_iff (n : Z) :
  seconds n = n * Second <-> - 9223372036 <= n <= 9223372036.
Proof.
  unfold seconds, Second. split.
  - intros Heq. pose proof (wrap_is_int (n * 1000000000)) as Hint.
    rewrite Heq in Hint. unfold is_int, int_min, int_max in Hint. lia.
  - intros Hn. apply wrap_small. unfold is_int, int_min, int_max. lia.
Qed.

(** X19: [executeELF] launches the binary once, before anything else,
    and then either prints the header and the captured output, which it
    does exactly for a run that exited with status 0, or writes one log
    line with the error. *)
Theorem executeELF_prints_iff_exit_zero (elfPath : string)
    (r : exec_result) :
  (exists output,
     r = Exited 0 output
     /\ executeELF elfPath r
        = [EExec elfPath; EPrint "ELF binary output:"; EPrint output])
  \/ ((forall output, r <> Exited 0 output)
      /\ exists err,
           executeELF elfPath r = [EExec elfPath; ELog (LogExecFailed err)]).
Proof.
  destruct r as [err|err output|status output].
  - right. split; [discriminate|]. eexists; reflexivity.
  - right. split; [discriminate|]. eexists; reflexivity.
  - destruct (Z.eq_dec status 0) as [->|Hstatus].
    + left. exists output. now split.
    + right. split; [intros o H; injection H as H _; contradiction|].
      exists (ExitError status). unfold executeELF, CombinedOutput.
      destruct (Z.eqb_spec status 0); [contradiction|reflexivity].
Qed.
